(** * Snake game engine (making_ai_from_scratch/reinforcement_learning/snake_game/gui.py)

    Shallow embedding of [SnakeConfig] and [SnakeGame].  Python sets of
    cells are stdpp [gset]s of integer pairs; the deque is a list with the
    head first.  An uncaught Python exception is [None].  The [grid] field
    of [SnakeGame] is only ever written (never read) by the engine, so only
    the index checks of its writes in [spawn_snake] are kept.  The Python
    [random] module is an explicit stream of draws carried in the state:
    [random.choice(seq)] returns [seq[_randbelow(len(seq))]]. *)

From Stdlib Require Import ZArith String Ascii.
From stdpp Require Import base gmap sets list strings.

Local Open Scope Z_scope.

Definition pos : Type := (Z * Z)%type.

Module Config.
(** [@dataclass class SnakeConfig] *)
Record t := mk {
    grid_size : Z;
    cell_size : Z;
    speed_ms : Z;
    apples : Z;
    initial_length : Z;
    wrap_walls : bool;
    show_grid : bool
  }.
End Config.

(** The mutable fields of [SnakeGame] (plus the random stream). *)
Record SnakeGame := mkGame {
  snake : list pos;
  snake_set : gset pos;
  apples : gset pos;
  free_tiles : gset pos;
  direction : string;
  pending_direction : string;
  running : bool;
  alive : bool;
  score : Z;
  rng : nat -> nat
}.

(** Field updates. *)
Definition set_snake (s : SnakeGame) (v : list pos) : SnakeGame :=
  mkGame v (snake_set s) (apples s) (free_tiles s) (direction s)
    (pending_direction s) (running s) (alive s) (score s) (rng s).
Definition set_snake_set (s : SnakeGame) (v : gset pos) : SnakeGame :=
  mkGame (snake s) v (apples s) (free_tiles s) (direction s)
    (pending_direction s) (running s) (alive s) (score s) (rng s).
Definition set_apples (s : SnakeGame) (v : gset pos) : SnakeGame :=
  mkGame (snake s) (snake_set s) v (free_tiles s) (direction s)
    (pending_direction s) (running s) (alive s) (score s) (rng s).
Definition set_free_tiles (s : SnakeGame) (v : gset pos) : SnakeGame :=
  mkGame (snake s) (snake_set s) (apples s) v (direction s)
    (pending_direction s) (running s) (alive s) (score s) (rng s).
Definition set_direction (s : SnakeGame) (v : string) : SnakeGame :=
  mkGame (snake s) (snake_set s) (apples s) (free_tiles s) v
    (pending_direction s) (running s) (alive s) (score s) (rng s).
Definition set_pending_direction (s : SnakeGame) (v : string) : SnakeGame :=
  mkGame (snake s) (snake_set s) (apples s) (free_tiles s) (direction s)
    v (running s) (alive s) (score s) (rng s).
Definition set_alive (s : SnakeGame) (v : bool) : SnakeGame :=
  mkGame (snake s) (snake_set s) (apples s) (free_tiles s) (direction s)
    (pending_direction s) (running s) v (score s) (rng s).
Definition set_score (s : SnakeGame) (v : Z) : SnakeGame :=
  mkGame (snake s) (snake_set s) (apples s) (free_tiles s) (direction s)
    (pending_direction s) (running s) (alive s) v (rng s).
Definition set_rng (s : SnakeGame) (v : nat -> nat) : SnakeGame :=
  mkGame (snake s) (snake_set s) (apples s) (free_tiles s) (direction s)
    (pending_direction s) (running s) (alive s) (score s) v.

(** [range(n)] over integers. *)
Definition range (n : Z) : list Z := map Z.of_nat (seq 0 (Z.to_nat n)).

(** [{(x, y) for x in range(size) for y in range(size)}] *)
Definition all_cells (size : Z) : gset pos :=
  list_to_set (x ← range size; y ← range size; [(x, y)]).

(** [random.choice(seq)]: [seq[_randbelow(len(seq))]], advancing the stream. *)
Definition choice (r : nat -> nat) (l : list pos) : pos * (nat -> nat) :=
  (nth (r O `mod` length l)%nat l (0, 0), fun k => r (S k)).

(** The [while] loop of [replenish_apples].  Each iteration removes one
    cell from the free tiles, so [size free] iterations always suffice
    (see [replenish_loop_fuel]). *)
Fixpoint replenish_loop (fuel : nat) (target : Z) (a f : gset pos)
    (r : nat -> nat) : gset pos * gset pos * (nat -> nat) :=
  match fuel with
  | O => (a, f, r)
  | S fuel' =>
      if bool_decide (Z.of_nat (size a) < target) && bool_decide (f ≠ ∅) then
        let '(p, r') := choice r (elements f) in
        replenish_loop fuel' target ({[p]} ∪ a) (f ∖ {[p]}) r'
      else (a, f, r)
  end.

Definition replenish_target (cfg : Config.t) (s : SnakeGame) : Z :=
  Z.min (Config.apples cfg) (Z.of_nat (size (free_tiles s))).

Definition replenish_apples (cfg : Config.t) (s : SnakeGame) : SnakeGame :=
  let '(a, f, r) :=
    replenish_loop (size (free_tiles s)) (replenish_target cfg s)
      (apples s) (free_tiles s) (rng s) in
  set_rng (set_free_tiles (set_apples s a) f) r.

(** Python's [min] / [max] over a sequence; [ValueError] on an empty one. *)
Definition py_min (l : list Z) : option Z :=
  match l with [] => None | x :: l' => Some (fold_left Z.min l' x) end.
Definition py_max (l : list Z) : option Z :=
  match l with [] => None | x :: l' => Some (fold_left Z.max l' x) end.

(** [lst[i]] on a list of length [n] does not raise. *)
Definition py_index_ok (n i : Z) : bool := (- n <=? i) && (i <? n).

(** The cells computed by [spawn_snake], in head-first order. *)
Definition naive_positions (size length : Z) : list pos :=
  let center_y := size / 2 in
  let center_x := size / 2 in
  map (fun i => (center_x - i, center_y)) (range length).

Definition spawn_positions (size length : Z) : option (list pos) :=
  let center_y := size / 2 in
  let positions := naive_positions size length in
  match py_min (map fst positions), py_max (map fst positions) with
  | Some min_x, Some max_x =>
      if (min_x <? 0) || (max_x >=? size) then
        let tail_x := (size - length) / 2 in
        let head_x := tail_x + length - 1 in
        Some (map (fun i => (head_x - i, center_y)) (range length))
      else Some positions
  | _, _ => None
  end.

(** The [for x, y in positions] loop of [spawn_snake]; the write
    [self.grid[y][x] = 1] raises [IndexError] out of range. *)
Fixpoint place_cells (size : Z) (ps : list pos) (s : SnakeGame)
    : option SnakeGame :=
  match ps with
  | [] => Some s
  | (x, y) :: ps' =>
      let s' := set_free_tiles
                  (set_snake_set (set_snake s (snake s ++ [(x, y)]))
                     ({[(x, y)]} ∪ snake_set s))
                  (free_tiles s ∖ {[(x, y)]}) in
      if py_index_ok size y && py_index_ok size x
      then place_cells size ps' s' else None
  end.

Definition spawn_snake (cfg : Config.t) (length : Z) (s : SnakeGame)
    : option SnakeGame :=
  match spawn_positions (Config.grid_size cfg) length with
  | None => None
  | Some ps => place_cells (Config.grid_size cfg) ps s
  end.

Definition reset (cfg : Config.t) (r : nat -> nat) : option SnakeGame :=
  let s0 := {| snake := [];
               snake_set := ∅;
               apples := ∅;
               free_tiles := all_cells (Config.grid_size cfg);
               direction := "right";
               pending_direction := "right";
               running := false;
               alive := true;
               score := 0;
               rng := r |} in
  match spawn_snake cfg (Config.initial_length cfg) s0 with
  | None => None
  | Some s1 => Some (replenish_apples cfg s1)
  end.

(** [_next_head]: [None] is the [IndexError] of [self.snake[0]]. *)
Definition next_head (sn : list pos) (d : string) : option pos :=
  match sn with
  | [] => None
  | (head_x, head_y) :: _ =>
      Some (if String.eqb d "up" then (head_x, head_y - 1)
            else if String.eqb d "down" then (head_x, head_y + 1)
            else if String.eqb d "left" then (head_x - 1, head_y)
            else (head_x + 1, head_y))
  end.

Definition in_bounds (cfg : Config.t) (x y : Z) : bool :=
  let size := Config.grid_size cfg in
  (0 <=? x) && (x <? size) && (0 <=? y) && (y <? size).

(** [move] from [new_head = (new_x, new_y)] on (lines 103-124). *)
Definition move_commit (cfg : Config.t) (s : SnakeGame) (new_head : pos)
    : option (bool * SnakeGame) :=
  let growing := bool_decide (new_head ∈ apples s) in
  match last (snake s) with
  | None => None
  | Some tail =>
      if bool_decide (new_head ∈ snake_set s)
         && negb (negb growing && bool_decide (new_head = tail))
      then Some (false, set_alive s false)
      else
        let s1 := set_free_tiles
                    (set_snake_set (set_snake s (new_head :: snake s))
                       ({[new_head]} ∪ snake_set s))
                    (free_tiles s ∖ {[new_head]}) in
        let s2 :=
          if growing then
            set_score (set_apples s1 (apples s1 ∖ {[new_head]})) (score s1 + 1)
          else
            match last (snake s1) with
            | None => s1
            | Some old_tail =>
                set_free_tiles
                  (set_snake_set (set_snake s1 (removelast (snake s1)))
                     (snake_set s1 ∖ {[old_tail]}))
                  ({[old_tail]} ∪ free_tiles s1)
            end in
        Some (true, replenish_apples cfg s2)
  end.

Definition move (cfg : Config.t) (s : SnakeGame) : option (bool * SnakeGame) :=
  if negb (alive s) then Some (false, s) else
  let s1 := set_direction s (pending_direction s) in
  match next_head (snake s1) (direction s1) with
  | None => None
  | Some (new_x, new_y) =>
      if Config.wrap_walls cfg then
        let size := Config.grid_size cfg in
        if size =? 0 then None   (* ZeroDivisionError *)
        else move_commit cfg s1 (new_x mod size, new_y mod size)
      else if negb (in_bounds cfg new_x new_y) then
        Some (false, set_alive s1 false)
      else move_commit cfg s1 (new_x, new_y)
  end.

Definition opposites (d : string) : option string :=
  if String.eqb d "up" then Some "down"%string
  else if String.eqb d "down" then Some "up"%string
  else if String.eqb d "left" then Some "right"%string
  else if String.eqb d "right" then Some "left"%string
  else None.

Definition queue_direction (s : SnakeGame) (new_direction : string)
    : SnakeGame :=
  match opposites new_direction with
  | None => s
  | Some opp =>
      if (1 <? Z.of_nat (length (snake s))) && String.eqb opp (direction s)
      then s
      else set_pending_direction s new_direction
  end.

(** States reachable from [reset()] by [move()] and [queue_direction()]. *)
Inductive reachable (cfg : Config.t) : SnakeGame -> Prop :=
  | reach_reset r s : reset cfg r = Some s -> reachable cfg s
  | reach_move s b s' :
      reachable cfg s -> move cfg s = Some (b, s') -> reachable cfg s'
  | reach_queue s d : reachable cfg s -> reachable cfg (queue_direction s d).

(** A driver session: [reset] with a random stream, then a list of
    [queue_direction] / [move] calls (a failed [move] is kept, as the
    engine keeps the dead state). *)
Inductive op := Queue (d : string) | Move.

Fixpoint run_ops (cfg : Config.t) (ops : list op) (s : SnakeGame)
    : option SnakeGame :=
  match ops with
  | [] => Some s
  | Queue d :: ops' => run_ops cfg ops' (queue_direction s d)
  | Move :: ops' =>
      match move cfg s with
      | None => None
      | Some (_, s') => run_ops cfg ops' s'
      end
  end.

Definition run (cfg : Config.t) (r : nat -> nat) (ops : list op)
    : option SnakeGame :=
  match reset cfg r with None => None | Some s => run_ops cfg ops s end.

(** ** Basic facts about the embedding *)

Lemma choice_elem (r : nat -> nat) (l : list pos) :
  l <> [] -> fst (choice r l) ∈ l.
Proof.
  intros Hl. unfold choice; simpl. apply list_elem_of_In, nth_In.
  apply Nat.mod_upper_bound. destruct l; [congruence | simpl; lia].
Qed.

Lemma size_union_singleton_le (p : pos) (a : gset pos) :
  (size ({[p]} ∪ a) <= S (size a))%nat.
Proof.
  rewrite size_union_alt, size_singleton.
  pose proof (subseteq_size (a ∖ {[p]}) a ltac:(set_solver)). lia.
Qed.

Lemma union_pick (p : pos) (a f : gset pos) :
  p ∈ f -> ({[p]} ∪ a) ∪ (f ∖ {[p]}) = a ∪ f.
Proof.
  intros Hp. apply set_eq; intros x.
  rewrite !elem_of_union, elem_of_difference, elem_of_singleton.
  destruct (decide (x = p)); subst; tauto.
Qed.

(** The loop of [replenish_apples]: apples only grow, free tiles only
    shrink, every new apple is a removed free tile, and the apple count
    ends at [max(len(apples), target)] whenever [target] does not exceed
    the cells available. *)
Lemma replenish_loop_spec (fuel : nat) (target : Z) (a f : gset pos)
    (r : nat -> nat) :
  (size f <= fuel)%nat -> target <= Z.of_nat (size (a ∪ f)) ->
  let '(a', f', _) := replenish_loop fuel target a f r in
  a ⊆ a' /\ f' ⊆ f /\ a' ∪ f' = a ∪ f /\ (a' ∖ a) ## f' /\
  Z.of_nat (size a') = Z.max (Z.of_nat (size a)) target.
Proof.
  revert a f r. induction fuel as [|n IH]; intros a f r Hf Ht; cbn [replenish_loop].
  - assert (f = ∅) as -> by (apply leibniz_equiv, size_empty_inv; lia).
    rewrite union_empty_r_L in Ht.
    refine (conj _ (conj _ (conj _ (conj _ _)))); [set_solver .. | lia].
  - destruct (bool_decide (Z.of_nat (size a) < target) && bool_decide (f ≠ ∅))
      eqn:C.
    + apply andb_true_iff in C as [C1 C2].
      apply bool_decide_eq_true in C1, C2.
      destruct (choice r (elements f)) as [p r'] eqn:Ch.
      assert (Hp : p ∈ f).
      { apply elem_of_elements.
        change p with (fst (p, r')). rewrite <- Ch. apply choice_elem.
        intros E. apply C2, leibniz_equiv, elements_empty_iff, E. }
      assert (Hs : size f = S (size (f ∖ {[p]}))).
      { rewrite size_difference by set_solver. rewrite size_singleton.
        assert (0 < size f)%nat.
        { apply Nat.neq_0_lt_0. intros E. apply size_empty_inv in E.
          set_solver. }
        lia. }
      assert (Hu : ({[p]} ∪ a) ∪ (f ∖ {[p]}) = a ∪ f) by (apply union_pick, Hp).
      specialize (IH ({[p]} ∪ a) (f ∖ {[p]}) r' ltac:(lia)
                    ltac:(rewrite Hu; exact Ht)).
      destruct (replenish_loop n target ({[p]} ∪ a) (f ∖ {[p]}) r')
        as [[a' f'] r''].
      destruct IH as (H1 & H2 & H3 & H4 & H5).
      pose proof (size_union_singleton_le p a).
      refine (conj _ (conj _ (conj _ (conj _ _)))); [set_solver | set_solver
        | rewrite H3; exact Hu | set_solver | lia].
    + apply andb_false_iff in C as [C|C]; apply bool_decide_eq_false in C.
      * refine (conj _ (conj _ (conj _ (conj _ _)))); [set_solver .. | lia].
      * assert (f = ∅) as -> by (destruct (decide (f = ∅)); tauto).
        rewrite union_empty_r_L in Ht.
        refine (conj _ (conj _ (conj _ (conj _ _)))); [set_solver .. | lia].
Qed.

Lemma replenish_apples_spec (cfg : Config.t) (s : SnakeGame) :
  let s' := replenish_apples cfg s in
  snake s' = snake s /\ snake_set s' = snake_set s /\
  direction s' = direction s /\ pending_direction s' = pending_direction s /\
  running s' = running s /\ alive s' = alive s /\ score s' = score s /\
  apples s ⊆ apples s' /\ free_tiles s' ⊆ free_tiles s /\
  apples s' ∪ free_tiles s' = apples s ∪ free_tiles s /\
  (apples s' ∖ apples s) ## free_tiles s' /\
  Z.of_nat (size (apples s')) =
    Z.max (Z.of_nat (size (apples s))) (replenish_target cfg s).
Proof.
  unfold replenish_apples.
  assert (Ht : replenish_target cfg s
               <= Z.of_nat (size (apples s ∪ free_tiles s))).
  { unfold replenish_target.
    pose proof (subseteq_size (free_tiles s) (apples s ∪ free_tiles s)
                  ltac:(set_solver)). lia. }
  pose proof (replenish_loop_spec (size (free_tiles s)) (replenish_target cfg s)
                (apples s) (free_tiles s) (rng s) (le_n _) Ht) as H.
  destruct (replenish_loop (size (free_tiles s)) (replenish_target cfg s)
              (apples s) (free_tiles s) (rng s)) as [[a f] r].
  simpl. destruct H as (H1 & H2 & H3 & H4 & H5).
  repeat split; auto.
Qed.

(** ** Spawning *)

Definition in_grid (size : Z) (c : pos) : Prop :=
  0 <= c.1 < size /\ 0 <= c.2 < size.

Definition index_ok (size : Z) (c : pos) : Prop :=
  py_index_ok size c.2 && py_index_ok size c.1 = true.

Lemma place_cells_some (size : Z) (ps : list pos) (s s' : SnakeGame) :
  place_cells size ps s = Some s' ->
  Forall (index_ok size) ps /\
  s' = mkGame (snake s ++ ps) (list_to_set ps ∪ snake_set s) (apples s)
         (free_tiles s ∖ list_to_set ps) (direction s) (pending_direction s)
         (running s) (alive s) (score s) (rng s).
Proof.
  revert s. induction ps as [|[x y] ps IH]; intros s H; simpl in H.
  - injection H as <-. split; [constructor |].
    destruct s; simpl. rewrite app_nil_r. f_equal; set_solver.
  - destruct (py_index_ok size y && py_index_ok size x) eqn:C; [|discriminate].
    apply IH in H as [HF ->]. split; [constructor; assumption |].
    simpl. rewrite <- app_assoc. f_equal; set_solver.
Qed.

Lemma place_cells_ok (size : Z) (ps : list pos) (s : SnakeGame) :
  Forall (index_ok size) ps ->
  place_cells size ps s =
  Some (mkGame (snake s ++ ps) (list_to_set ps ∪ snake_set s) (apples s)
         (free_tiles s ∖ list_to_set ps) (direction s) (pending_direction s)
         (running s) (alive s) (score s) (rng s)).
Proof.
  revert s. induction ps as [|[x y] ps IH]; intros s H; simpl.
  - destruct s; simpl. rewrite app_nil_r. f_equal. f_equal; set_solver.
  - inversion H as [|? ? Hc HF]; subst. unfold index_ok in Hc; simpl in Hc.
    rewrite Hc, IH by exact HF. simpl. rewrite <- app_assoc.
    f_equal. f_equal; set_solver.
Qed.

(** The state [spawn_snake] leaves, before [replenish_apples]. *)
Definition spawned (cfg : Config.t) (ps : list pos) (r : nat -> nat)
    : SnakeGame :=
  mkGame ps (list_to_set ps) ∅ (all_cells (Config.grid_size cfg) ∖ list_to_set ps)
    "right" "right" false true 0 r.

Lemma reset_some (cfg : Config.t) (r : nat -> nat) (s : SnakeGame) :
  reset cfg r = Some s <->
  exists ps, spawn_positions (Config.grid_size cfg) (Config.initial_length cfg)
               = Some ps /\
    Forall (index_ok (Config.grid_size cfg)) ps /\
    s = replenish_apples cfg (spawned cfg ps r).
Proof.
  unfold reset, spawn_snake. split.
  - destruct (spawn_positions _ _) as [ps|]; [|discriminate].
    destruct (place_cells _ ps _) as [s1|] eqn:E; [|discriminate].
    intros H. injection H as <-. apply place_cells_some in E as [HF ->].
    exists ps. split; [reflexivity | split; [exact HF |]].
    unfold spawned; simpl. do 2 f_equal. set_solver.
  - intros (ps & -> & HF & ->). rewrite place_cells_ok by exact HF.
    simpl. unfold spawned. do 3 f_equal. set_solver.
Qed.

Lemma fold_min_le (l : list Z) (x : Z) :
  fold_left Z.min l x <= x /\ Forall (fun y => fold_left Z.min l x <= y) l.
Proof.
  revert x. induction l as [|y l IH]; intros x; simpl.
  - split; [lia | constructor].
  - destruct (IH (Z.min x y)) as [H1 H2].
    split; [lia | constructor; [lia | exact H2]].
Qed.

Lemma fold_max_ge (l : list Z) (x : Z) :
  x <= fold_left Z.max l x /\ Forall (fun y => y <= fold_left Z.max l x) l.
Proof.
  revert x. induction l as [|y l IH]; intros x; simpl.
  - split; [lia | constructor].
  - destruct (IH (Z.max x y)) as [H1 H2].
    split; [lia | constructor; [lia | exact H2]].
Qed.

Lemma py_min_le (l : list Z) (m : Z) :
  py_min l = Some m -> Forall (fun y => m <= y) l.
Proof.
  destruct l as [|x l]; simpl; [discriminate|]. intros H; injection H as <-.
  destruct (fold_min_le l x). constructor; assumption.
Qed.

Lemma py_max_ge (l : list Z) (m : Z) :
  py_max l = Some m -> Forall (fun y => y <= m) l.
Proof.
  destruct l as [|x l]; simpl; [discriminate|]. intros H; injection H as <-.
  destruct (fold_max_ge l x). constructor; assumption.
Qed.

Lemma in_range (n i : Z) : In i (range n) <-> 0 <= i < n.
Proof.
  unfold range. rewrite in_map_iff. split.
  - intros (k & <- & Hk). apply in_seq in Hk. lia.
  - intros Hi. exists (Z.to_nat i). split; [lia|]. apply in_seq. lia.
Qed.

Lemma length_range (n : Z) : length (range n) = Z.to_nat n.
Proof. unfold range. rewrite length_map, length_seq. reflexivity. Qed.

Lemma spawn_positions_some (size length : Z) (ps : list pos) :
  spawn_positions size length = Some ps ->
  1 <= length /\
  exists head_x, ps = map (fun i => (head_x - i, size / 2)) (range length).
Proof.
  unfold spawn_positions, naive_positions.
  destruct (Z.to_nat length) eqn:En.
  - unfold range. rewrite En. simpl. discriminate.
  - assert (Hl : 1 <= length) by lia.
    destruct (py_min _) as [mn|]; [|discriminate].
    destruct (py_max _) as [mx|]; [|discriminate].
    destruct ((mn <? 0) || (mx >=? size)); intros H; injection H as <-;
      split; eauto.
Qed.

Lemma spawn_positions_in_grid (size length : Z) (ps : list pos) :
  length <= size -> spawn_positions size length = Some ps ->
  Forall (in_grid size) ps.
Proof.
  intros Hle H. destruct (spawn_positions_some _ _ _ H) as [H1 _].
  revert H. unfold spawn_positions, naive_positions.
  destruct (py_min _) as [mn|] eqn:Emn; [|discriminate].
  destruct (py_max _) as [mx|] eqn:Emx; [|discriminate].
  apply py_min_le in Emn. apply py_max_ge in Emx.
  rewrite !Forall_map in Emn, Emx.
  destruct ((mn <? 0) || (mx >=? size)) eqn:C; intros H; injection H as <-;
    apply Forall_map, Forall_forall; intros i Hi;
    pose proof (proj1 (in_range _ _) (proj1 (list_elem_of_In _ _) Hi));
    unfold in_grid; simpl.
  - split; Z.div_mod_to_equations; lia.
  - apply orb_false_iff in C as [C1 C2].
    apply Z.ltb_ge in C1. rewrite Z.geb_leb in C2. apply Z.leb_gt in C2.
    rewrite Forall_forall in Emn, Emx.
    specialize (Emn i Hi). specialize (Emx i Hi). simpl in Emn, Emx.
    split; Z.div_mod_to_equations; lia.
Qed.

Lemma reset_fields (cfg : Config.t) (r : nat -> nat) (s : SnakeGame) :
  reset cfg r = Some s ->
  spawn_positions (Config.grid_size cfg) (Config.initial_length cfg)
    = Some (snake s) /\
  snake_set s = list_to_set (snake s) /\
  direction s = "right"%string /\ pending_direction s = "right"%string /\
  running s = false /\ alive s = true /\ score s = 0.
Proof.
  intros H. apply reset_some in H as (ps & Hps & _ & ->).
  destruct (replenish_apples_spec cfg (spawned cfg ps r))
    as (E1 & E2 & E3 & E4 & E5 & E6 & E7 & _).
  rewrite E1, E2, E3, E4, E5, E6, E7. simpl. auto 7.
Qed.

Lemma reset_snake_some (cfg : Config.t) (r : nat -> nat) (ps : list pos) :
  spawn_positions (Config.grid_size cfg) (Config.initial_length cfg) = Some ps ->
  Forall (index_ok (Config.grid_size cfg)) ps ->
  option_map snake (reset cfg r) = Some ps.
Proof.
  intros H1 H2.
  assert (E : reset cfg r = Some (replenish_apples cfg (spawned cfg ps r)))
    by (apply reset_some; eauto).
  rewrite E. simpl. f_equal. apply (replenish_apples_spec cfg (spawned cfg ps r)).
Qed.

(** [C7]: after [reset()] the snake is a horizontal line with its head
    rightmost and both directions "right"; grid 20 / length 3 gives
    (10,10),(9,10),(8,10); grid 3 / length 3 leaves the grid when centred
    and is placed at x = 2,1,0 on row 1 instead; and whenever
    [initial_length <= grid_size] every spawned cell lies in the grid. *)
Theorem reset_spawn_layout :
  (forall cfg r s, reset cfg r = Some s ->
     direction s = "right"%string /\ pending_direction s = "right"%string /\
     exists head_x,
       snake s = map (fun i => (head_x - i, Config.grid_size cfg / 2))
                   (range (Config.initial_length cfg))) /\
  (forall cfg r, Config.grid_size cfg = 20 -> Config.initial_length cfg = 3 ->
     option_map snake (reset cfg r) = Some [(10, 10); (9, 10); (8, 10)]) /\
  (forall cfg r, Config.grid_size cfg = 3 -> Config.initial_length cfg = 3 ->
     Exists (fun c => ~ in_grid 3 c) (naive_positions 3 3) /\
     option_map snake (reset cfg r) = Some [(2, 1); (1, 1); (0, 1)]) /\
  (forall cfg r s, Config.initial_length cfg <= Config.grid_size cfg ->
     reset cfg r = Some s -> Forall (in_grid (Config.grid_size cfg)) (snake s)).
Proof.
  split; [|split; [|split]].
  - intros cfg r s H.
    destruct (reset_fields cfg r s H) as (Hp & _ & Hd & Hpd & _).
    apply spawn_positions_some in Hp as [_ Hshape]. auto.
  - intros cfg r Hg Hl. apply reset_snake_some; rewrite ?Hg, ?Hl;
      [reflexivity | repeat constructor].
  - intros cfg r Hg Hl. split.
    + apply Exists_exists. exists (-1, 1). split.
      * apply list_elem_of_In. simpl. auto.
      * unfold in_grid; simpl; lia.
    + apply reset_snake_some; rewrite ?Hg, ?Hl; [reflexivity | repeat constructor].
  - intros cfg r s Hle H. apply reset_fields in H as [Hp _].
    exact (spawn_positions_in_grid _ _ _ Hle Hp).
Qed.

(** ** Direction input *)

Definition four_directions : list string := ["up"; "down"; "left"; "right"]%string.

Lemma opposites_spec (d : string) :
  match opposites d with
  | Some o => d ∈ four_directions /\ opposites o = Some d
  | None => d ∉ four_directions
  end.
Proof.
  unfold opposites.
  destruct (String.eqb_spec d "up"); [subst; split; [set_solver | reflexivity]|].
  destruct (String.eqb_spec d "down"); [subst; split; [set_solver | reflexivity]|].
  destruct (String.eqb_spec d "left"); [subst; split; [set_solver | reflexivity]|].
  destruct (String.eqb_spec d "right"); [subst; split; [set_solver | reflexivity]|].
  unfold four_directions. rewrite !elem_of_cons, elem_of_nil. tauto.
Qed.

Lemma opposites_sym (d o : string) : opposites d = Some o -> opposites o = Some d.
Proof. intros H. pose proof (opposites_spec d) as S. rewrite H in S. apply S. Qed.

(** Every field but [pending_direction] is the same. *)
Definition same_but_pending (s s' : SnakeGame) : Prop :=
  snake s' = snake s /\ snake_set s' = snake_set s /\ apples s' = apples s /\
  free_tiles s' = free_tiles s /\ direction s' = direction s /\
  running s' = running s /\ alive s' = alive s /\ score s' = score s /\
  rng s' = rng s.

Lemma queue_same_but_pending (s : SnakeGame) (d : string) :
  same_but_pending s (queue_direction s d).
Proof.
  unfold queue_direction. destruct (opposites d) as [o|].
  - destruct (_ && _); unfold same_but_pending; simpl; auto 10.
  - unfold same_but_pending; auto 10.
Qed.

(** [C6]: [queue_direction(d)] ignores a [d] that is not one of the four
    directions, ignores the exact opposite of the current direction when
    the snake is longer than 1, and otherwise sets [pending = d] (so the
    opposite is accepted at length 1); it never changes any other field. *)
Theorem queue_direction_rule (s : SnakeGame) (d : string) :
  (d ∉ four_directions -> queue_direction s d = s) /\
  (opposites (direction s) = Some d -> (1 < length (snake s))%nat ->
     queue_direction s d = s) /\
  (d ∈ four_directions ->
     ~ (opposites (direction s) = Some d /\ (1 < length (snake s))%nat) ->
     queue_direction s d = set_pending_direction s d) /\
  (length (snake s) = 1%nat -> d ∈ four_directions ->
     queue_direction s d = set_pending_direction s d) /\
  same_but_pending s (queue_direction s d).
Proof.
  pose proof (opposites_spec d) as Sd.
  pose proof (queue_same_but_pending s d) as Hsame.
  unfold queue_direction. destruct (opposites d) as [o|] eqn:Eo.
  - destruct Sd as [Hin Ho].
    assert (Hiff : String.eqb o (direction s) = true <->
                   opposites (direction s) = Some d).
    { rewrite String.eqb_eq. split; [intros <-; exact Ho|].
      intros H. apply opposites_sym in H. congruence. }
    split; [|split; [|split; [|split]]].
    + intros Hn. contradiction.
    + intros H1 H2. apply Hiff in H1. rewrite H1.
      replace (1 <? Z.of_nat (length (snake s))) with true by lia. reflexivity.
    + intros _ Hn.
      destruct ((1 <? Z.of_nat (length (snake s))) && String.eqb o (direction s))
        eqn:C; [|reflexivity].
      apply andb_true_iff in C as [C1 C2]. apply Hiff in C2.
      exfalso. apply Hn. split; [exact C2 | lia].
    + intros H1 _. rewrite H1. reflexivity.
    + unfold queue_direction in Hsame; rewrite Eo in Hsame; exact Hsame.
  - split; [|split; [|split; [|split]]].
    + intros _. reflexivity.
    + intros H. apply opposites_sym in H. congruence.
    + intros H. contradiction.
    + intros _ H. contradiction.
    + unfold queue_direction in Hsame; rewrite Eo in Hsame; exact Hsame.
Qed.

(** ** Walls *)

(** [C3]: with [wrap_walls] off, a candidate head outside the grid kills
    the snake and [move()] returns [False]; with it on, the coordinates are
    taken modulo [grid_size] (re-entering at the opposite edge) and the
    move proceeds from the wrapped head, so a failure there can only be a
    self-collision. *)
Theorem move_wall_rule (cfg : Config.t) (s : SnakeGame) (nx ny : Z)
    (Halive : alive s = true)
    (Hn : next_head (snake s) (pending_direction s) = Some (nx, ny)) :
  let size := Config.grid_size cfg in
  (Config.wrap_walls cfg = false -> in_bounds cfg nx ny = false ->
     move cfg s = Some (false, set_alive (set_direction s (pending_direction s))
                                 false)) /\
  (Config.wrap_walls cfg = true -> 0 < size ->
     move cfg s = move_commit cfg (set_direction s (pending_direction s))
                    (nx mod size, ny mod size) /\
     in_grid size (nx mod size, ny mod size) /\
     (nx = -1 -> nx mod size = size - 1) /\ (nx = size -> nx mod size = 0) /\
     (ny = -1 -> ny mod size = size - 1) /\ (ny = size -> ny mod size = 0) /\
     (forall s', move cfg s = Some (false, s') ->
        (nx mod size, ny mod size) ∈ snake_set s)).
Proof.
  intros size. unfold size in *. clear size.
  unfold move. rewrite Halive. simpl. rewrite Hn. split.
  - intros Hw Hb. rewrite Hw, Hb. reflexivity.
  - intros Hw Hpos. rewrite Hw.
    replace (Config.grid_size cfg =? 0) with false by lia.
    split; [reflexivity|]. split; [unfold in_grid; simpl; split; apply Z.mod_pos_bound; lia|].
    split; [intros ->; symmetry; apply (Z.mod_unique (-1) (Config.grid_size cfg) (-1)); lia|].
    split; [intros ->; apply Z_mod_same_full|].
    split; [intros ->; symmetry; apply (Z.mod_unique (-1) (Config.grid_size cfg) (-1)); lia|].
    split; [intros ->; apply Z_mod_same_full|].
    intros s'. unfold move_commit. simpl.
    destruct (last (snake s)) as [tail|] eqn:El; [|discriminate].
    intros H. destruct (decide ((nx mod Config.grid_size cfg,
                                 ny mod Config.grid_size cfg) ∈ snake_set s))
      as [C|C]; [exact C|exfalso].
    rewrite (bool_decide_eq_false_2 _ C) in H. simpl in H. inversion H.
Qed.

(** ** The move step *)

(** The candidate new head of [move()], after any wrapping. *)
Definition candidate_head (cfg : Config.t) (s : SnakeGame) : option pos :=
  match next_head (snake s) (pending_direction s) with
  | None => None
  | Some (x, y) =>
      if Config.wrap_walls cfg
      then Some (x mod Config.grid_size cfg, y mod Config.grid_size cfg)
      else Some (x, y)
  end.

(** The state after lines 111-121 on a growing move ... *)
Definition grow_state (s : SnakeGame) (h : pos) : SnakeGame :=
  mkGame (h :: snake s) ({[h]} ∪ snake_set s) (apples s ∖ {[h]})
    (free_tiles s ∖ {[h]}) (direction s) (pending_direction s) (running s)
    (alive s) (score s + 1) (rng s).

(** ... and on a non-growing one, [tail] being the popped cell. *)
Definition slide_state (s : SnakeGame) (h tail : pos) : SnakeGame :=
  mkGame (removelast (h :: snake s)) (({[h]} ∪ snake_set s) ∖ {[tail]})
    (apples s) ({[tail]} ∪ (free_tiles s ∖ {[h]})) (direction s)
    (pending_direction s) (running s) (alive s) (score s) (rng s).

Lemma last_cons_some {A} (x : A) (l : list A) (t : A) :
  last l = Some t -> last (x :: l) = Some t.
Proof. destruct l; simpl; [discriminate | auto]. Qed.

Lemma length_removelast_cons {A} (x : A) (l : list A) :
  length (removelast (x :: l)) = length l.
Proof.
  revert x. induction l as [|y l IH]; intros x; [reflexivity|].
  change (removelast (x :: y :: l)) with (x :: removelast (y :: l)).
  cbn [length]. rewrite IH. reflexivity.
Qed.

Lemma move_commit_true (cfg : Config.t) (s s' : SnakeGame) (h : pos) :
  move_commit cfg s h = Some (true, s') ->
  exists tail, last (snake s) = Some tail /\
    ~ (h ∈ snake_set s /\ ~ ((h ∉ apples s) /\ h = tail)) /\
    ((h ∈ apples s /\ s' = replenish_apples cfg (grow_state s h)) \/
     ((h ∉ apples s) /\ s' = replenish_apples cfg (slide_state s h tail))).
Proof.
  unfold move_commit. destruct (last (snake s)) as [tail|] eqn:El;
    [|discriminate].
  destruct (decide (h ∈ snake_set s /\ ~ ((h ∉ apples s) /\ h = tail))) as [D|D].
  - destruct D as [D1 D2].
    rewrite (bool_decide_eq_true_2 _ D1).
    destruct (decide (h ∈ apples s)) as [A|A].
    + rewrite (bool_decide_eq_true_2 _ A). simpl. discriminate.
    + rewrite (bool_decide_eq_false_2 _ A).
      destruct (decide (h = tail)) as [T|T]; [tauto|].
      rewrite (bool_decide_eq_false_2 _ T). simpl. discriminate.
  - intros H. exists tail. split; [reflexivity | split; [exact D|]].
    assert (Hc : bool_decide (h ∈ snake_set s) &&
                 negb (negb (bool_decide (h ∈ apples s)) &&
                       bool_decide (h = tail)) = false).
    { destruct (decide (h ∈ snake_set s)) as [S|S];
        [rewrite (bool_decide_eq_true_2 _ S) | rewrite (bool_decide_eq_false_2 _ S);
                                               reflexivity].
      destruct (decide (h ∈ apples s)) as [A|A];
        [exfalso; apply D; split; [exact S | tauto]|].
      destruct (decide (h = tail)) as [T|T];
        [|exfalso; apply D; split; [exact S | tauto]].
      rewrite (bool_decide_eq_false_2 _ A), (bool_decide_eq_true_2 _ T).
      reflexivity. }
    rewrite Hc in H. simpl in H.
    destruct (decide (h ∈ apples s)) as [A|A].
    + rewrite (bool_decide_eq_true_2 _ A) in H. left. split; [exact A|].
      injection H as <-. reflexivity.
    + rewrite (bool_decide_eq_false_2 _ A) in H. right. split; [exact A|].
      rewrite (last_cons_some h _ _ El) in H. simpl in H.
      injection H as <-. reflexivity.
Qed.

Lemma move_commit_false (cfg : Config.t) (s s' : SnakeGame) (h : pos) :
  move_commit cfg s h = Some (false, s') -> s' = set_alive s false.
Proof.
  unfold move_commit. destruct (last (snake s)); [|discriminate].
  destruct (_ && _); [intros H; injection H as <-; reflexivity|].
  simpl. discriminate.
Qed.

Lemma move_commit_none (cfg : Config.t) (s : SnakeGame) (h : pos) (b : bool)
    (s' : SnakeGame) :
  move_commit cfg s h = Some (b, s') -> snake s <> [].
Proof. unfold move_commit. destruct (snake s); simpl; [discriminate | congruence]. Qed.

(** Every outcome of [move()]. *)
Lemma move_cases (cfg : Config.t) (s s' : SnakeGame) (b : bool) :
  move cfg s = Some (b, s') ->
  (b = false /\ s' = s) \/
  (b = false /\ s' = set_alive (set_direction s (pending_direction s)) false) \/
  (b = true /\ alive s = true /\ exists h,
     candidate_head cfg s = Some h /\
     (0 < Config.grid_size cfg -> in_grid (Config.grid_size cfg) h) /\
     move_commit cfg (set_direction s (pending_direction s)) h = Some (true, s')).
Proof.
  unfold move, candidate_head.
  destruct (alive s) eqn:Ha; simpl; [|intros H; injection H as <- <-; auto].
  destruct (next_head (snake s) (pending_direction s)) as [[x y]|];
    [|discriminate].
  destruct (Config.wrap_walls cfg).
  - destruct (Config.grid_size cfg =? 0) eqn:Z0; [discriminate|].
    apply Z.eqb_neq in Z0. intros H. destruct b.
    + right; right. split; [reflexivity | split; [reflexivity|]].
      eexists. split; [reflexivity | split; [|exact H]].
      intros Hpos. unfold in_grid; simpl.
      split; apply Z.mod_pos_bound; lia.
    + right; left. split; [reflexivity|]. apply move_commit_false in H.
      exact H.
  - destruct (in_bounds cfg x y) eqn:B; simpl.
    + intros H. destruct b.
      * right; right. split; [reflexivity | split; [reflexivity|]].
        eexists. split; [reflexivity | split; [|exact H]].
        intros _. unfold in_bounds in B. unfold in_grid; simpl.
        apply andb_true_iff in B as [B B4]. apply andb_true_iff in B as [B B3].
        apply andb_true_iff in B as [B1 B2]. lia.
      * right; left. split; [reflexivity|]. apply move_commit_false in H.
        exact H.
    + intros H. injection H as <- <-. auto.
Qed.

Lemma move_length_score (cfg : Config.t) (s s' : SnakeGame) (b : bool) :
  move cfg s = Some (b, s') ->
  (length (snake s') = length (snake s) /\ score s' = score s) \/
  (length (snake s') = S (length (snake s)) /\ score s' = score s + 1).
Proof.
  intros H. apply move_cases in H
    as [[_ ->] | [[_ ->] | (_ & _ & h & _ & _ & Hc)]]; [auto | auto |].
  apply move_commit_true in Hc as (tail & _ & _ & [[_ ->] | [_ ->]]);
    destruct (replenish_apples_spec cfg (grow_state (set_direction s (pending_direction s)) h))
      as (E1 & _ & _ & _ & _ & _ & E7 & _);
    destruct (replenish_apples_spec cfg
                (slide_state (set_direction s (pending_direction s)) h tail))
      as (F1 & _ & _ & _ & _ & _ & F7 & _).
  - rewrite E1, E7. cbn [grow_state snake score set_direction]. right. auto.
  - rewrite F1, F7. cbn [slide_state snake score set_direction]. left.
    rewrite length_removelast_cons. auto.
Qed.

(** [C10]: in every reachable state the snake has [initial_length + score]
    cells, [score >= 0], so the snake never shrinks, is never shorter than
    [initial_length], and with [initial_length >= 2] it is never of
    length 1. *)
Theorem length_score_invariant (cfg : Config.t) (s : SnakeGame)
    (Hr : reachable cfg s) :
  Z.of_nat (length (snake s)) = Config.initial_length cfg + score s /\
  0 <= score s /\
  Config.initial_length cfg <= Z.of_nat (length (snake s)) /\
  (forall b s', move cfg s = Some (b, s') ->
     (length (snake s) <= length (snake s'))%nat) /\
  (2 <= Config.initial_length cfg -> (1 < length (snake s))%nat).
Proof.
  assert (Hinv : Z.of_nat (length (snake s)) = Config.initial_length cfg + score s
                 /\ 0 <= score s).
  { induction Hr as [r s Hs | s b s' _ [IH1 IH2] Hm | s d _ [IH1 IH2]].
    - apply reset_fields in Hs as (Hp & _ & _ & _ & _ & _ & Hsc).
      apply spawn_positions_some in Hp as [Hl [hx Hsh]].
      rewrite Hsc, Hsh, length_map, length_range. lia.
    - apply move_length_score in Hm as [[E1 E2] | [E1 E2]];
        rewrite E1, E2; lia.
    - destruct (queue_same_but_pending s d) as (E1 & _ & _ & _ & _ & _ & _ & E8 & _).
      rewrite E1, E8. lia. }
  destruct Hinv as [H1 H2]. split; [exact H1 | split; [exact H2 | split]].
  - lia.
  - split; [|lia]. intros b s' Hm.
    apply move_length_score in Hm as [[E1 _] | [E1 _]]; lia.
Qed.

(** [C5]: a successful growing [move()] (the candidate head is an apple)
    adds the head without removing the tail (length + 1), adds 1 to the
    score, leaves no apple on the eaten cell and frees no cell. *)
Theorem move_growing (cfg : Config.t) (s s' : SnakeGame) (h : pos)
    (Hm : move cfg s = Some (true, s'))
    (Hh : candidate_head cfg s = Some h)
    (Ha : h ∈ apples s) :
  snake s' = h :: snake s /\
  length (snake s') = S (length (snake s)) /\
  score s' = score s + 1 /\
  (h ∉ apples s') /\
  free_tiles s' ⊆ free_tiles s.
Proof.
  apply move_cases in Hm
    as [[D _] | [[D _] | (_ & _ & h0 & Hh0 & _ & Hc)]]; [discriminate | discriminate |].
  rewrite Hh in Hh0. injection Hh0 as <-.
  apply move_commit_true in Hc as (tail & _ & _ & [[_ ->] | [Hna _]]);
    [| simpl in Hna; contradiction].
  set (g := grow_state (set_direction s (pending_direction s)) h).
  destruct (replenish_apples_spec cfg g)
    as (E1 & _ & _ & _ & _ & _ & E7 & _ & E9 & E10 & E11 & _).
  rewrite E1, E7. subst g. cbn [grow_state snake score apples free_tiles set_direction]
    in *.
  split; [reflexivity | split; [reflexivity | split; [reflexivity | split]]].
  - intros Hin.
    assert (Hu : h ∈ apples (replenish_apples cfg
                   (grow_state (set_direction s (pending_direction s)) h))
                 ∪ free_tiles (replenish_apples cfg
                   (grow_state (set_direction s (pending_direction s)) h)))
      by set_solver.
    rewrite E10 in Hu. set_solver.
  - set_solver.
Qed.

Lemma spawn_4_3 : spawn_positions 4 3 = Some [(2, 2); (1, 2); (0, 2)].
Proof. reflexivity. Qed.

Lemma free_after_spawn_4_3 :
  size (all_cells 4 ∖ list_to_set [(2, 2); (1, 2); (0, 2)] : gset pos) = 13%nat.
Proof. vm_compute. reflexivity. Qed.

(** [C8]: [replenish_apples()] raises the apple count to
    [max(len(apples), min(config.apples, len(free_tiles)))], every new
    apple is a former free tile that has left the free tiles, nothing else
    changes and it never fails; after [reset()] with 5 apples, grid 4 and
    length 3 there are exactly 5 apples, none on the snake; with a single
    free tile at most one apple is added (exactly one on an apple-less
    board with 3 apples configured). *)
Theorem replenish_apples_rule (cfg : Config.t) (s : SnakeGame) :
  let s' := replenish_apples cfg s in
  (Z.of_nat (size (apples s')) =
     Z.max (Z.of_nat (size (apples s)))
       (Z.min (Config.apples cfg) (Z.of_nat (size (free_tiles s)))) /\
   apples s ⊆ apples s' /\
   apples s' ∖ apples s ⊆ free_tiles s /\
   (apples s' ∖ apples s) ## free_tiles s' /\
   free_tiles s' ⊆ free_tiles s /\
   free_tiles s ∖ free_tiles s' ⊆ apples s' /\
   snake s' = snake s /\ snake_set s' = snake_set s /\ score s' = score s) /\
  (size (free_tiles s) = 1%nat ->
     (size (apples s') <= size (apples s) + 1)%nat /\
     (Config.apples cfg = 3 -> apples s = ∅ -> size (apples s') = 1%nat)) /\
  (forall cfg4 r s4, Config.grid_size cfg4 = 4 -> Config.initial_length cfg4 = 3 ->
     Config.apples cfg4 = 5 -> reset cfg4 r = Some s4 ->
     size (apples s4) = 5%nat /\ apples s4 ## list_to_set (snake s4) /\
     apples s4 ## snake_set s4).
Proof.
  intros s'.
  destruct (replenish_apples_spec cfg s)
    as (E1 & E2 & _ & _ & _ & _ & E7 & E8 & E9 & E10 & E11 & E12).
  unfold replenish_target in E12. fold s' in E1, E2, E7, E8, E9, E10, E11, E12.
  split; [|split].
  - split; [exact E12|]. split; [exact E8|].
    split; [set_solver|]. split; [exact E11|]. split; [exact E9|].
    split; [set_solver|]. auto.
  - intros Hf. rewrite Hf in E12. split.
    + lia.
    + intros Ha He. rewrite Ha, He, size_empty in E12. simpl in E12. lia.
  - intros cfg4 r s4 Hg Hl Ha Hs.
    apply reset_some in Hs as (ps & Hp & _ & ->).
    rewrite Hg, Hl, spawn_4_3 in Hp. injection Hp as <-.
    set (sp := spawned cfg4 [(2, 2); (1, 2); (0, 2)] r).
    destruct (replenish_apples_spec cfg4 sp)
      as (F1 & F2 & _ & _ & _ & _ & _ & F8 & F9 & F10 & F11 & F12).
    unfold replenish_target in F12.
    assert (Hfree : size (free_tiles sp) = 13%nat).
    { subst sp. unfold spawned. cbn [free_tiles]. rewrite Hg.
      exact free_after_spawn_4_3. }
    assert (Hap : apples sp = ∅) by reflexivity.
    rewrite Hfree, Ha, Hap, size_empty in F12.
    assert (Hsub : apples (replenish_apples cfg4 sp) ⊆ free_tiles sp)
      by set_solver.
    rewrite F1, F2. subst sp. unfold spawned in *. cbn [snake snake_set] in *.
    cbn [free_tiles] in Hsub.
    split; [lia | split; set_solver].
Qed.

(** ** Reachable states *)

Lemma run_ops_reachable (cfg : Config.t) (ops : list op) (s s' : SnakeGame) :
  reachable cfg s -> run_ops cfg ops s = Some s' -> reachable cfg s'.
Proof.
  revert s. induction ops as [|[d|] ops IH]; intros s Hr H; simpl in H.
  - injection H as <-. exact Hr.
  - apply (IH _ (reach_queue cfg s d Hr) H).
  - destruct (move cfg s) as [[b s1]|] eqn:Hm; [|discriminate].
    apply (IH _ (reach_move cfg s b s1 Hr Hm) H).
Qed.

Lemma run_reachable (cfg : Config.t) (r : nat -> nat) (ops : list op)
    (s : SnakeGame) :
  run cfg r ops = Some s -> reachable cfg s.
Proof.
  unfold run. destruct (reset cfg r) as [s0|] eqn:E; [|discriminate].
  apply run_ops_reachable, reach_reset with r. exact E.
Qed.

(** A decidable proposition about a concrete state, settled by running
    its decision procedure. *)
Ltac decide_by_eval_true :=
  lazymatch goal with
  |- ?P => apply (bool_decide_eq_true_1 P); vm_compute; reflexivity
  end.
Ltac decide_by_eval_false :=
  lazymatch goal with
  |- ¬ ?P => apply (bool_decide_eq_false_1 P); vm_compute; reflexivity
  end.

Definition dead_game : SnakeGame :=
  mkGame [] ∅ ∅ ∅ "" "" false false 0 (fun _ => O).

(** The state a session ends in, and the state after one more [move()]. *)
Definition run_state (cfg : Config.t) (r : nat -> nat) (ops : list op)
    : SnakeGame :=
  match run cfg r ops with Some s => s | None => dead_game end.

Definition move_state (cfg : Config.t) (s : SnakeGame) : SnakeGame :=
  match move cfg s with Some (_, s') => s' | None => dead_game end.

Lemma run_state_reachable (cfg : Config.t) (r : nat -> nat) (ops : list op) :
  run cfg r ops <> None -> reachable cfg (run_state cfg r ops).
Proof.
  unfold run_state. destruct (run cfg r ops) eqn:E; [|congruence].
  intros _. exact (run_reachable _ _ _ _ E).
Qed.

(** Session A: an 8x8 board, 31 apples, a snake of 3 cells.  The random
    stream draws index 0 every time but the 32nd draw, which takes the
    last free tile. *)
Definition cfgA : Config.t := Config.mk 8 28 100 31 3 false true.
Definition rA (k : nat) : nat := if Nat.eqb k 31 then 30%nat else 0%nat.
(** Right, then up onto the apple at (5,3). *)
Definition sA_eat : SnakeGame := run_state cfgA rA [Move; Queue "up"].
(** Left, then down onto the tail cell (4,4). *)
Definition sA_slide : SnakeGame :=
  run_state cfgA rA [Move; Queue "up"; Move; Queue "left"; Move; Queue "down"].
Definition sA_slid : SnakeGame := move_state cfgA sA_slide.
(** Three more tail slides, then up to (4,2): the tail (4,4) is popped. *)
Definition sA_bad : SnakeGame :=
  run_state cfgA rA
    [Move; Queue "up"; Move; Queue "left"; Move; Queue "down"; Move;
     Queue "right"; Move; Queue "up"; Move; Queue "left"; Move;
     Queue "up"; Move].

(** Session B: an 8x8 board, 1 apple, a snake of 6 cells that circles a
    2x3 block by tail slides and then turns into its own body. *)
Definition cfgB : Config.t := Config.mk 8 28 100 1 6 false true.
Definition rB (k : nat) : nat := 0%nat.
Definition sB0 : SnakeGame := run_state cfgB rB [].
Definition sB_pre : SnakeGame :=
  run_state cfgB rB
    [Queue "up"; Move; Queue "left"; Move; Move; Queue "down"; Move;
     Queue "right"; Move; Move; Queue "up"; Move; Queue "left"; Move; Move;
     Queue "down"; Move; Queue "right"; Move; Queue "up"].
Definition sB_bad : SnakeGame := move_state cfgB sB_pre.
Definition sB1 : SnakeGame := move_state cfgB sB0.

(** ** Coverage of the board *)

(** Every cell of the board is in the snake set, the apples or the free
    tiles; and the apples are topped up to [replenish_apples]' target. *)
Definition covers (cfg : Config.t) (s : SnakeGame) : Prop :=
  all_cells (Config.grid_size cfg) ⊆ snake_set s ∪ apples s ∪ free_tiles s.

Definition apples_topped (cfg : Config.t) (s : SnakeGame) : Prop :=
  replenish_target cfg s <= Z.of_nat (size (apples s)).

Lemma elem_of_all_cells (n : Z) (c : pos) : c ∈ all_cells n <-> in_grid n c.
Proof.
  destruct c as [x y]. unfold all_cells, in_grid; simpl.
  rewrite elem_of_list_to_set, list_elem_of_bind. split.
  - intros (x' & Hx & Hx'). apply list_elem_of_bind in Hx as (y' & Hy & Hy').
    apply list_elem_of_singleton in Hy. injection Hy as -> ->.
    apply list_elem_of_In, in_range in Hx'.
    apply list_elem_of_In, in_range in Hy'. lia.
  - intros [Hx Hy]. exists x.
    split; [|apply list_elem_of_In, in_range; lia].
    apply list_elem_of_bind. exists y.
    split; [apply list_elem_of_singleton; reflexivity|].
    apply list_elem_of_In, in_range; lia.
Qed.

Lemma replenish_noop (cfg : Config.t) (s : SnakeGame) :
  apples_topped cfg s -> replenish_apples cfg s = s.
Proof.
  unfold apples_topped, replenish_apples. intros H.
  destruct (size (free_tiles s)) as [|n]; cbn [replenish_loop].
  - destruct s; reflexivity.
  - rewrite (bool_decide_eq_false_2
               (Z.of_nat (size (apples s)) < replenish_target cfg s)) by lia.
    destruct s; reflexivity.
Qed.

Lemma replenish_covers (cfg : Config.t) (s : SnakeGame) :
  covers cfg s -> covers cfg (replenish_apples cfg s).
Proof.
  destruct (replenish_apples_spec cfg s)
    as (_ & E2 & _ & _ & _ & _ & _ & _ & _ & E10 & _).
  unfold covers. rewrite E2, <- !union_assoc_L, E10. tauto.
Qed.

Lemma replenish_topped (cfg : Config.t) (s : SnakeGame) :
  apples_topped cfg (replenish_apples cfg s).
Proof.
  destruct (replenish_apples_spec cfg s)
    as (_ & _ & _ & _ & _ & _ & _ & _ & E9 & _ & _ & E12).
  pose proof (subseteq_size _ _ E9).
  unfold apples_topped, replenish_target in *. lia.
Qed.

Lemma spawned_covers (cfg : Config.t) (ps : list pos) (r : nat -> nat) :
  covers cfg (spawned cfg ps r).
Proof.
  unfold covers, spawned; simpl. apply elem_of_subseteq. intros x Hx.
  destruct (decide (x ∈ (list_to_set ps : gset pos))); set_solver.
Qed.

Lemma grow_covers (cfg : Config.t) (s : SnakeGame) (h : pos) :
  covers cfg s -> covers cfg (grow_state s h).
Proof.
  unfold covers, grow_state; simpl. rewrite !elem_of_subseteq.
  intros H x Hx. apply H in Hx. destruct (decide (x = h)); set_solver.
Qed.

Lemma slide_covers (cfg : Config.t) (s : SnakeGame) (h t : pos) :
  covers cfg s -> covers cfg (slide_state s h t).
Proof.
  unfold covers, slide_state; simpl. rewrite !elem_of_subseteq.
  intros H x Hx. apply H in Hx.
  destruct (decide (x = t)); [set_solver|].
  destruct (decide (x = h)); set_solver.
Qed.

Lemma reachable_inv (cfg : Config.t) (s : SnakeGame) :
  reachable cfg s ->
  covers cfg s /\ apples_topped cfg s /\ 0 < Config.grid_size cfg.
Proof.
  induction 1 as [r s Hs | s b s' _ IH Hm | s d _ IH].
  - apply reset_some in Hs as (ps & Hp & HF & ->).
    split; [apply replenish_covers, spawned_covers|].
    split; [apply replenish_topped|].
    apply spawn_positions_some in Hp as [Hl [hx ->]].
    destruct (Z.to_nat (Config.initial_length cfg)) eqn:En; [lia|].
    unfold range in HF. rewrite En in HF. simpl in HF.
    inversion HF as [|? ? Hc _]; subst. unfold index_ok in Hc; simpl in Hc.
    apply andb_true_iff in Hc as [Hc _]. unfold py_index_ok in Hc.
    apply andb_true_iff in Hc as [A B].
    apply Z.leb_le in A. apply Z.ltb_lt in B. lia.
  - destruct IH as (Hc & Ht & Hp). split; [|split; [|exact Hp]].
    + apply move_cases in Hm
        as [[_ ->] | [[_ ->] | (_ & _ & h & _ & _ & Hmc)]]; [exact Hc|exact Hc|].
      apply move_commit_true in Hmc as (tail & _ & _ & [[_ ->] | [_ ->]]);
        apply replenish_covers; [apply grow_covers | apply slide_covers];
        exact Hc.
    + apply move_cases in Hm
        as [[_ ->] | [[_ ->] | (_ & _ & h & _ & _ & Hmc)]]; [exact Ht|exact Ht|].
      apply move_commit_true in Hmc as (tail & _ & _ & [[_ ->] | [_ ->]]);
        apply replenish_topped.
  - destruct (queue_same_but_pending s d) as (_ & E2 & E3 & E4 & _).
    destruct IH as (Hc & Ht & Hp). unfold covers, apples_topped, replenish_target.
    rewrite E2, E3, E4. auto.
Qed.

(** [C4] (amended): a successful non-growing [move()] from a reachable
    state keeps the snake's length, and when the new head is not the
    previous tail cell, that vacated tail cell is a free tile after the
    call.  (When the head slides onto the tail cell, the same call may give
    that cell to a new apple instead; see [move_nongrowing_tail_taken].) *)
Theorem move_nongrowing (cfg : Config.t) (s s' : SnakeGame) (h : pos)
    (Hr : reachable cfg s)
    (Hm : move cfg s = Some (true, s'))
    (Hh : candidate_head cfg s = Some h)
    (Ha : h ∉ apples s) :
  length (snake s') = length (snake s) /\
  (forall t, last (snake s) = Some t -> h <> t -> t ∈ free_tiles s').
Proof.
  destruct (reachable_inv cfg s Hr) as (Hcov & Htop & Hpos).
  apply move_cases in Hm
    as [[D _] | [[D _] | (_ & _ & h' & Hh' & Hg & Hc)]];
    [discriminate | discriminate |].
  rewrite Hh in Hh'. injection Hh' as <-. specialize (Hg Hpos).
  apply move_commit_true in Hc as (tail & Hl & Hcol & [[Ha' _] | [_ ->]]);
    [contradiction|].
  cbn [snake snake_set apples set_direction] in Hl, Hcol.
  split.
  - destruct (replenish_apples_spec cfg
                (slide_state (set_direction s (pending_direction s)) h tail))
      as (E1 & _).
    rewrite E1. cbn [slide_state snake set_direction].
    apply length_removelast_cons.
  - intros t Ht Hne. rewrite Hl in Ht. injection Ht as <-.
    assert (Hs : h ∉ snake_set s) by tauto.
    assert (Hf : h ∈ free_tiles s).
    { apply elem_of_all_cells in Hg. unfold covers in Hcov.
      rewrite elem_of_subseteq in Hcov. apply Hcov in Hg. set_solver. }
    rewrite replenish_noop.
    + cbn [slide_state free_tiles set_direction]. set_solver.
    + unfold apples_topped, replenish_target in *.
      cbn [slide_state free_tiles apples set_direction].
      pose proof (size_union_singleton_le tail (free_tiles s ∖ {[h]})).
      assert (Hd : size (free_tiles s ∖ {[h]}) = (size (free_tiles s) - 1)%nat).
      { rewrite size_difference by set_solver. rewrite size_singleton.
        reflexivity. }
      assert (size (free_tiles s) <> 0)%nat.
      { intros E. apply size_empty_inv in E. set_solver. }
      lia.
Qed.

(** [C4] fails as stated: in session A the head slides onto the tail cell
    (4,4), and [replenish_apples] then draws (4,4) as a new apple, so the
    vacated tail cell is not a free tile after the call. *)
Lemma move_nongrowing_tail_taken :
  ~ (forall cfg s s' h t,
       reachable cfg s -> move cfg s = Some (true, s') ->
       candidate_head cfg s = Some h -> h ∉ apples s ->
       last (snake s) = Some t ->
       length (snake s') = length (snake s) /\ t ∈ free_tiles s').
Proof.
  intros H.
  destruct (H cfgA sA_slide sA_slid (4, 4) (4, 4)) as [_ Hf].
  - apply run_state_reachable. vm_compute. discriminate.
  - vm_compute. reflexivity.
  - vm_compute. reflexivity.
  - decide_by_eval_false.
  - vm_compute. reflexivity.
  - assert (E : bool_decide ((4, 4) ∈ free_tiles sA_slid) = false)
      by (vm_compute; reflexivity).
    apply bool_decide_eq_false_1 in E. contradiction.
Qed.

Lemma move_nongrowing_witness :
  reachable cfgB sB0 /\ move cfgB sB0 = Some (true, sB1) /\
  candidate_head cfgB sB0 = Some (7, 4) /\ ((7, 4) ∉ apples sB0) /\
  (length (snake sB1) = length (snake sB0) /\
   (forall t, last (snake sB0) = Some t -> (7, 4) <> t ->
      t ∈ free_tiles sB1)).
Proof.
  assert (Hr : reachable cfgB sB0)
    by (apply run_state_reachable; vm_compute; discriminate).
  assert (Hm : move cfgB sB0 = Some (true, sB1)) by (vm_compute; reflexivity).
  assert (Hh : candidate_head cfgB sB0 = Some (7, 4))
    by (vm_compute; reflexivity).
  assert (Ha : (7, 4) ∉ apples sB0)
    by decide_by_eval_false.
  exact (conj Hr (conj Hm (conj Hh (conj Ha
           (move_nongrowing cfgB sB0 sB1 (7, 4) Hr Hm Hh Ha))))).
Defined.

(** ** The tail slide *)

(** The partition of the board the engine documents. *)
Definition partition_ok (cfg : Config.t) (s : SnakeGame) : Prop :=
  snake_set s ∩ apples s = ∅ /\ snake_set s ∩ free_tiles s = ∅ /\
  apples s ∩ free_tiles s = ∅ /\
  snake_set s ∪ apples s ∪ free_tiles s = all_cells (Config.grid_size cfg).

(** [C1]: a tail slide (lines 111-121 with [new_head == tail]) adds the
    head to [snake_set] (already there), then discards the popped tail,
    which is the head cell, and adds it to [free_tiles].  In session A the
    cell (4,4) thus becomes free while still in the body, is drawn as an
    apple, and later leaves the body through the pop: it is then both an
    apple and a free tile in a reachable state, so the partition fails. *)
Theorem reachable_partition_broken :
  reachable cfgA sA_bad /\ (4, 4) ∈ apples sA_bad /\
  (4, 4) ∈ free_tiles sA_bad /\ ~ partition_ok cfgA sA_bad /\
  ~ (forall cfg s, reachable cfg s -> partition_ok cfg s).
Proof.
  assert (Hr : reachable cfgA sA_bad)
    by (apply run_state_reachable; vm_compute; discriminate).
  assert (Ha : (4, 4) ∈ apples sA_bad)
    by decide_by_eval_true.
  assert (Hf : (4, 4) ∈ free_tiles sA_bad)
    by decide_by_eval_true.
  assert (Hp : ~ partition_ok cfgA sA_bad).
  { intros (_ & _ & E & _). revert Ha Hf E.
    generalize (apples sA_bad) (free_tiles sA_bad). set_solver. }
  refine (conj Hr (conj Ha (conj Hf (conj Hp _)))).
  intros H. exact (Hp (H _ _ Hr)).
Qed.

(** [C2]: after the tail slides of session B, [snake_set] no longer holds
    the body cell (5,3); the snake then turns up into it.  The candidate
    head is a body cell that is neither the tail nor an apple, yet [move()]
    succeeds and the snake stays alive. *)
Theorem body_collision_missed :
  reachable cfgB sB_pre /\ alive sB_pre = true /\
  candidate_head cfgB sB_pre = Some (5, 3) /\ (5, 3) ∈ snake sB_pre /\
  last (snake sB_pre) = Some (6, 4) /\ ((5, 3) ∉ apples sB_pre) /\
  move cfgB sB_pre = Some (true, sB_bad) /\ alive sB_bad = true.
Proof.
  assert (Hr : reachable cfgB sB_pre)
    by (apply run_state_reachable; vm_compute; discriminate).
  refine (conj Hr (conj _ (conj _ (conj _ (conj _ (conj _ (conj _ _))))))).
  - vm_compute. reflexivity.
  - vm_compute. reflexivity.
  - decide_by_eval_true.
  - vm_compute. reflexivity.
  - decide_by_eval_false.
  - vm_compute. reflexivity.
  - vm_compute. reflexivity.
Qed.

(** [C9]: the same session B move puts the head on (5,3) while (5,3) is
    still in the body: the reachable snake holds (5,3) twice. *)
Theorem reachable_snake_duplicate :
  reachable cfgB sB_bad /\
  snake sB_bad = [(5, 3); (5, 4); (4, 4); (4, 3); (5, 3); (6, 3)] /\
  ~ NoDup (snake sB_bad) /\
  ~ (forall cfg s, reachable cfg s -> NoDup (snake s)).
Proof.
  assert (Hr : reachable cfgB sB_bad).
  { apply (reach_move cfgB sB_pre true sB_bad).
    - apply run_state_reachable. vm_compute. discriminate.
    - vm_compute. reflexivity. }
  assert (Hs : snake sB_bad = [(5, 3); (5, 4); (4, 4); (4, 3); (5, 3); (6, 3)])
    by (vm_compute; reflexivity).
  assert (Hn : ~ NoDup (snake sB_bad)).
  { rewrite Hs. decide_by_eval_false. }
  refine (conj Hr (conj Hs (conj Hn _))).
  intros H. exact (Hn (H _ _ Hr)).
Qed.

(** ** Witnesses *)

Lemma move_wall_rule_witness :
  alive sB1 = true /\
  next_head (snake sB1) (pending_direction sB1) = Some (8, 4) /\
  (let size := Config.grid_size cfgB in
   (Config.wrap_walls cfgB = false -> in_bounds cfgB 8 4 = false ->
      move cfgB sB1 =
        Some (false, set_alive (set_direction sB1 (pending_direction sB1))
                       false)) /\
   (Config.wrap_walls cfgB = true -> 0 < size ->
      move cfgB sB1 = move_commit cfgB (set_direction sB1 (pending_direction sB1))
                        (8 mod size, 4 mod size) /\
      in_grid size (8 mod size, 4 mod size) /\
      (8 = -1 -> 8 mod size = size - 1) /\ (8 = size -> 8 mod size = 0) /\
      (4 = -1 -> 4 mod size = size - 1) /\ (4 = size -> 4 mod size = 0) /\
      (forall s', move cfgB sB1 = Some (false, s') ->
         (8 mod size, 4 mod size) ∈ snake_set sB1))).
Proof.
  assert (Ha : alive sB1 = true) by (vm_compute; reflexivity).
  assert (Hn : next_head (snake sB1) (pending_direction sB1) = Some (8, 4))
    by (vm_compute; reflexivity).
  exact (conj Ha (conj Hn (move_wall_rule cfgB sB1 8 4 Ha Hn))).
Defined.

Definition sA_ate : SnakeGame := move_state cfgA sA_eat.

Lemma move_growing_witness :
  move cfgA sA_eat = Some (true, sA_ate) /\
  candidate_head cfgA sA_eat = Some (5, 3) /\ (5, 3) ∈ apples sA_eat /\
  (snake sA_ate = (5, 3) :: snake sA_eat /\
   length (snake sA_ate) = S (length (snake sA_eat)) /\
   score sA_ate = score sA_eat + 1 /\
   ((5, 3) ∉ apples sA_ate) /\
   free_tiles sA_ate ⊆ free_tiles sA_eat).
Proof.
  assert (Hm : move cfgA sA_eat = Some (true, sA_ate))
    by (vm_compute; reflexivity).
  assert (Hh : candidate_head cfgA sA_eat = Some (5, 3))
    by (vm_compute; reflexivity).
  assert (Ha : (5, 3) ∈ apples sA_eat)
    by decide_by_eval_true.
  exact (conj Hm (conj Hh (conj Ha (move_growing cfgA sA_eat sA_ate (5, 3)
                                      Hm Hh Ha)))).
Defined.

Lemma length_score_invariant_witness :
  reachable cfgB sB_pre /\
  (Z.of_nat (length (snake sB_pre)) = Config.initial_length cfgB + score sB_pre /\
   0 <= score sB_pre /\
   Config.initial_length cfgB <= Z.of_nat (length (snake sB_pre)) /\
   (forall b s', move cfgB sB_pre = Some (b, s') ->
      (length (snake sB_pre) <= length (snake s'))%nat) /\
   (2 <= Config.initial_length cfgB -> (1 < length (snake sB_pre))%nat)).
Proof.
  assert (Hr : reachable cfgB sB_pre)
    by (apply run_state_reachable; vm_compute; discriminate).
  exact (conj Hr (length_score_invariant cfgB sB_pre Hr)).
Defined.

(** ** Spawning limits *)

Lemma spawn_positions_exists (size length : Z) :
  1 <= length -> exists ps, spawn_positions size length = Some ps.
Proof.
  intros Hl. unfold spawn_positions, naive_positions, range.
  destruct (Z.to_nat length) eqn:En; [lia|]. simpl.
  destruct (_ || _); eauto.
Qed.

Lemma in_grid_index_ok (size : Z) (c : pos) : in_grid size c -> index_ok size c.
Proof.
  destruct c as [x y]. unfold in_grid, index_ok, py_index_ok; simpl. intros.
  apply andb_true_iff; split; apply andb_true_iff; split; lia.
Qed.

(** When the centred line leaves the board on the left, [spawn_snake] uses
    the fallback placement. *)
Lemma spawn_positions_fallback (size length : Z) :
  1 <= length -> size / 2 - (length - 1) < 0 ->
  spawn_positions size length =
  Some (map (fun i => ((size - length) / 2 + length - 1 - i, size / 2))
          (range length)).
Proof.
  intros Hl Hneg. unfold spawn_positions, naive_positions.
  assert (Hin : In (length - 1) (range length)) by (apply in_range; lia).
  destruct (py_min (map fst (map (fun i => (size / 2 - i, size / 2)) (range length))))
    as [mn|] eqn:Emn.
  - destruct (py_max (map fst (map (fun i => (size / 2 - i, size / 2)) (range length))))
      as [mx|] eqn:Emx.
    + apply py_min_le in Emn. rewrite !Forall_map, Forall_forall in Emn.
      specialize (Emn (length - 1) (proj2 (list_elem_of_In _ _) Hin)).
      simpl in Emn. replace (mn <? 0) with true by lia. reflexivity.
    + destruct (range length); [contradiction | discriminate].
  - destruct (range length); [contradiction | discriminate].
Qed.

Lemma last_range (n : Z) : 1 <= n -> last (range n) = Some (n - 1).
Proof.
  intros Hn. unfold range. replace (Z.to_nat n) with (S (Z.to_nat (n - 1))) by lia.
  rewrite seq_S, map_app. cbn [map]. rewrite last_snoc. f_equal. lia.
Qed.

Lemma last_map {A B} (f : A -> B) (l : list A) :
  last (map f l) = option_map f (last l).
Proof.
  induction l as [|x l IH]; [reflexivity|].
  destruct l as [|y l]; [reflexivity|].
  rewrite last_cons_cons, <- IH. reflexivity.
Qed.

Lemma fallback_index_ok (size : Z) :
  1 <= size ->
  Forall (index_ok size)
    (map (fun i => ((size - (size + 1)) / 2 + (size + 1) - 1 - i, size / 2))
       (range (size + 1))).
Proof.
  intros Hs. apply Forall_map, Forall_forall. intros i Hi.
  apply list_elem_of_In, in_range in Hi.
  unfold index_ok, py_index_ok; simpl.
  replace ((size - (size + 1)) / 2) with (-1)
    by (apply (Z.div_unique _ _ _ 1); lia).
  assert (0 <= size / 2 < size) by (Z.div_mod_to_equations; lia).
  apply andb_true_iff; split; apply andb_true_iff; split; lia.
Qed.

(** [X5]: on a board of at least one cell, [reset()] (through
    [spawn_snake]) succeeds exactly when [1 <= initial_length <= grid_size + 1].
    A length of 0 or less makes [min()] raise; a length above
    [grid_size + 1] puts the fallback head at [x >= grid_size], where
    [self.grid[y][x] = 1] raises.  At [grid_size + 1] the fallback tail
    sits at [x = -1], which Python's negative indexing accepts, so the new
    snake has a cell off the board. *)
Theorem reset_length_limits (cfg : Config.t) (r : nat -> nat)
    (Hsize : 1 <= Config.grid_size cfg) :
  (reset cfg r <> None <->
   1 <= Config.initial_length cfg <= Config.grid_size cfg + 1) /\
  (Config.initial_length cfg = Config.grid_size cfg + 1 ->
   exists s, reset cfg r = Some s /\
     last (snake s) = Some (-1, Config.grid_size cfg / 2) /\
     (-1, Config.grid_size cfg / 2) ∉ all_cells (Config.grid_size cfg)).
Proof.
  remember (Config.grid_size cfg) as size eqn:Esz.
  remember (Config.initial_length cfg) as len eqn:Eln.
  assert (Hfb : len = size + 1 ->
                reset cfg r = Some (replenish_apples cfg (spawned cfg
                  (map (fun i => ((size - len) / 2 + len - 1 - i, size / 2))
                     (range len)) r))).
  { intros Hl. apply reset_some. rewrite <- Esz, <- Eln. eexists. split.
    - apply spawn_positions_fallback; [lia|].
      assert (0 <= size / 2 < size) by (Z.div_mod_to_equations; lia). lia.
    - split; [|reflexivity]. rewrite Hl. apply fallback_index_ok. exact Hsize. }
  split; [split|].
  - destruct (reset cfg r) as [s|] eqn:E; [intros _ | congruence].
    apply reset_some in E as (ps & Hp & HF & _).
    rewrite <- ?Esz in Hp, HF. rewrite <- Eln in Hp.
    destruct (spawn_positions_some _ _ _ Hp) as [Hl1 _].
    split; [exact Hl1|]. destruct (Z_le_gt_dec len (size + 1)) as [|Hgt]; [lia|].
    exfalso. rewrite spawn_positions_fallback in Hp; [|lia|].
    2: { assert (size / 2 <= size) by (Z.div_mod_to_equations; lia). lia. }
    injection Hp as <-. unfold range in HF.
    destruct (Z.to_nat len) eqn:En; [lia|]. simpl in HF.
    apply Forall_cons in HF as [Hc _]. unfold index_ok, py_index_ok in Hc.
    simpl in Hc. apply andb_true_iff in Hc as [_ Hc].
    apply andb_true_iff in Hc as [_ Hc]. apply Z.ltb_lt in Hc.
    Z.div_mod_to_equations. lia.
  - intros Hl. destruct (Z.eq_dec len (size + 1)) as [E|E].
    + rewrite (Hfb E). discriminate.
    + destruct (spawn_positions_exists size len ltac:(lia)) as [ps Hp].
      assert (HF : Forall (index_ok size) ps).
      { eapply Forall_impl; [|intros c; apply in_grid_index_ok].
        apply (spawn_positions_in_grid size len); [lia | exact Hp]. }
      assert (E' : reset cfg r = Some (replenish_apples cfg (spawned cfg ps r)))
        by (apply reset_some; rewrite <- Esz, <- Eln; eauto).
      rewrite E'. discriminate.
  - intros Hl. eexists. split; [exact (Hfb Hl)|]. split.
    + destruct (replenish_apples_spec cfg
                  (spawned cfg (map (fun i => ((size - len) / 2 + len - 1 - i,
                                                size / 2)) (range len)) r))
        as (E1 & _).
      rewrite E1. cbn [spawned snake]. rewrite last_map, last_range by lia.
      simpl. f_equal. f_equal.
      replace ((size - len) / 2) with (-1)
        by (apply (Z.div_unique _ _ _ 1); lia). lia.
    + rewrite elem_of_all_cells. unfold in_grid. simpl. lia.
Qed.

(** ** What [move()] reports *)

Lemma move_commit_alive (cfg : Config.t) (s s' : SnakeGame) (h : pos) (b : bool) :
  move_commit cfg s h = Some (b, s') -> alive s = true -> b = alive s'.
Proof.
  intros H Ha. destruct b.
  - apply move_commit_true in H as (tail & _ & _ & [[_ ->] | [_ ->]]).
    + destruct (replenish_apples_spec cfg (grow_state s h))
        as (_ & _ & _ & _ & _ & E6 & _). rewrite E6. simpl. congruence.
    + destruct (replenish_apples_spec cfg (slide_state s h tail))
        as (_ & _ & _ & _ & _ & E6 & _). rewrite E6. simpl. congruence.
  - apply move_commit_false in H as ->. reflexivity.
Qed.

Lemma move_alive (cfg : Config.t) (s s' : SnakeGame) (b : bool) :
  move cfg s = Some (b, s') -> b = alive s' /\ (alive s = false -> s' = s).
Proof.
  unfold move. destruct (alive s) eqn:A; simpl;
    [| intros H; injection H as <- <-; auto].
  destruct (next_head (snake s) (pending_direction s)) as [[x y]|];
    [|discriminate].
  intros H; split; [|discriminate].
  destruct (Config.wrap_walls cfg).
  - destruct (Config.grid_size cfg =? 0); [discriminate|].
    exact (move_commit_alive _ _ _ _ _ H A).
  - destruct (negb (in_bounds cfg x y)).
    + injection H as <- <-. reflexivity.
    + exact (move_commit_alive _ _ _ _ _ H A).
Qed.

Lemma set_pending_twice (s : SnakeGame) (p q : string) :
  set_pending_direction (set_pending_direction s p) q = set_pending_direction s q.
Proof. reflexivity. Qed.

Lemma run_ops_dead (cfg : Config.t) (ops : list op) (s : SnakeGame) :
  alive s = false ->
  exists p, run_ops cfg ops (set_pending_direction s (pending_direction s)) =
            Some (set_pending_direction s p).
Proof.
  intros Ha. change (set_pending_direction s (pending_direction s)) with
    (set_pending_direction s (pending_direction s)).
  generalize (pending_direction s) as p0.
  induction ops as [|[d|] ops IH]; intros p0; simpl.
  - eauto.
  - unfold queue_direction. destruct (opposites d) as [o|];
      [destruct (_ && _)|]; cbn [set_pending_direction snake direction];
      rewrite ?set_pending_twice; apply IH.
  - unfold move. cbn [set_pending_direction alive]. rewrite Ha. simpl. apply IH.
Qed.

(** ** Invariants the tail slide keeps *)

Lemma elem_of_removelast {A} (l : list A) (t x : A) :
  last l = Some t -> x ∈ l -> x <> t -> x ∈ removelast l.
Proof.
  induction l as [|a l IH]; [discriminate|]. intros Hl Hx Hne.
  destruct l as [|b l].
  - simpl in Hl. injection Hl as ->. apply list_elem_of_singleton in Hx. congruence.
  - change (removelast (a :: b :: l)) with (a :: removelast (b :: l)).
    rewrite last_cons_cons in Hl. apply elem_of_cons in Hx as [->|Hx].
    + apply elem_of_cons. auto.
    + apply elem_of_cons. right. auto.
Qed.

Lemma removelast_subset {A} (l : list A) (x : A) : x ∈ removelast l -> x ∈ l.
Proof.
  induction l as [|a l IH]; [inversion 1|].
  destruct l as [|b l]; [inversion 1|].
  change (removelast (a :: b :: l)) with (a :: removelast (b :: l)).
  intros H. apply elem_of_cons in H as [->|H]; apply elem_of_cons; auto.
Qed.

Lemma last_elem_of {A} (l : list A) (t : A) : last l = Some t -> t ∈ l.
Proof.
  induction l as [|a l IH]; [discriminate|]. destruct l as [|b l].
  - simpl. intros H; injection H as ->. apply list_elem_of_singleton; reflexivity.
  - rewrite last_cons_cons. intros H. apply elem_of_cons. auto.
Qed.

(** The snake set only holds body cells, and it shares no cell with the
    apples or the free tiles. *)
Definition sets_sound (s : SnakeGame) : Prop :=
  (forall x, x ∈ snake_set s -> x ∈ snake s) /\
  snake_set s ## apples s /\ snake_set s ## free_tiles s.

(** Every body cell and every cell of the three sets is on the board. *)
Definition on_board (cfg : Config.t) (s : SnakeGame) : Prop :=
  Forall (in_grid (Config.grid_size cfg)) (snake s) /\
  (forall x, x ∈ snake_set s ∪ apples s ∪ free_tiles s ->
     in_grid (Config.grid_size cfg) x).

Lemma replenish_sets_sound (cfg : Config.t) (s : SnakeGame) :
  sets_sound s -> sets_sound (replenish_apples cfg s).
Proof.
  destruct (replenish_apples_spec cfg s)
    as (E1 & E2 & _ & _ & _ & _ & _ & _ & E9 & E10 & _).
  unfold sets_sound. rewrite E1, E2. intros (H1 & H2 & H3).
  split; [exact H1|]. split; [|set_solver].
  intros x Hs Ha. assert (x ∈ apples s ∪ free_tiles s) by set_solver.
  set_solver.
Qed.

Lemma replenish_on_board (cfg : Config.t) (s : SnakeGame) :
  on_board cfg s -> on_board cfg (replenish_apples cfg s).
Proof.
  destruct (replenish_apples_spec cfg s)
    as (E1 & E2 & _ & _ & _ & _ & _ & _ & _ & E10 & _).
  unfold on_board. rewrite E1, E2. intros [H1 H2]. split; [exact H1|].
  intros x Hx. apply H2. rewrite <- union_assoc_L, <- E10, union_assoc_L. exact Hx.
Qed.

Lemma sets_sound_inv (cfg : Config.t) (s : SnakeGame) :
  reachable cfg s -> sets_sound s.
Proof.
  induction 1 as [r s Hs | s b s' _ IH Hm | s d _ IH].
  - apply reset_some in Hs as (ps & _ & _ & ->).
    apply replenish_sets_sound. unfold sets_sound, spawned; simpl.
    split; [intros x Hx; apply elem_of_list_to_set in Hx; exact Hx|].
    split; set_solver.
  - apply move_cases in Hm
      as [[_ ->] | [[_ ->] | (_ & _ & h & _ & _ & Hmc)]]; [exact IH | exact IH |].
    apply move_commit_true in Hmc as (tail & Hl & _ & [[_ ->] | [Ha ->]]);
      apply replenish_sets_sound; destruct IH as (H1 & H2 & H3);
      cbn [snake snake_set apples set_direction] in *.
    + unfold sets_sound, grow_state; simpl. split; [|split; set_solver].
      intros x Hx. apply elem_of_union in Hx as [Hx|Hx].
      * apply elem_of_singleton in Hx as ->. apply elem_of_cons; auto.
      * apply elem_of_cons; auto.
    + unfold sets_sound; cbn [slide_state snake snake_set apples free_tiles]. split; [|split].
      * intros x Hx. apply elem_of_difference in Hx as [Hx Hne].
        apply not_elem_of_singleton in Hne.
        apply (elem_of_removelast _ tail); [apply last_cons_some; exact Hl| |exact Hne].
        apply elem_of_union in Hx as [Hx|Hx].
        -- apply elem_of_singleton in Hx as ->. apply elem_of_cons; auto.
        -- apply elem_of_cons; auto.
      * intros x Hx Hx'. apply elem_of_difference in Hx as [Hx _].
        apply elem_of_union in Hx as [Hx|Hx];
          [apply elem_of_singleton in Hx as ->; contradiction | exact (H2 x Hx Hx')].
      * intros x Hx Hx'. apply elem_of_difference in Hx as [Hx Hne].
        apply elem_of_union in Hx' as [Hx'|Hx']; [set_solver|].
        apply elem_of_difference in Hx' as [Hx' Hnh].
        apply elem_of_union in Hx as [Hx|Hx]; [set_solver | exact (H3 x Hx Hx')].
  - destruct (queue_same_but_pending s d) as (E1 & E2 & E3 & E4 & _).
    unfold sets_sound in *. rewrite E1, E2, E3, E4. exact IH.
Qed.

Lemma on_board_inv (cfg : Config.t) (s : SnakeGame) :
  Config.initial_length cfg <= Config.grid_size cfg ->
  reachable cfg s -> on_board cfg s.
Proof.
  intros Hle Hr. pose proof (reachable_inv cfg s Hr) as (_ & _ & Hpos).
  induction Hr as [r s Hs | s b s' Hr IH Hm | s d Hr IH].
  - apply reset_some in Hs as (ps & Hp & _ & ->).
    apply replenish_on_board. pose proof (spawn_positions_in_grid _ _ _ Hle Hp) as HF.
    unfold on_board, spawned; simpl. split; [exact HF|].
    rewrite Forall_forall in HF. intros x Hx.
    apply elem_of_union in Hx as [Hx|Hx]; [apply elem_of_union in Hx as [Hx|Hx]|].
    + apply elem_of_list_to_set in Hx. exact (HF x Hx).
    + set_solver.
    + apply elem_of_difference in Hx as [Hx _]. apply elem_of_all_cells. exact Hx.
  - apply move_cases in Hm
      as [[_ ->] | [[_ ->] | (_ & _ & h & _ & Hg & Hmc)]]; [exact IH | exact IH |].
    specialize (Hg Hpos).
    apply move_commit_true in Hmc as (tail & Hl & _ & [[_ ->] | [_ ->]]);
      apply replenish_on_board; destruct IH as [H1 H2];
      cbn [snake snake_set apples free_tiles set_direction] in *.
    + unfold on_board, grow_state; simpl. split; [constructor; assumption|].
      intros x Hx. destruct (decide (x = h)) as [->|Hne]; [exact Hg|].
      apply H2. set_solver.
    + unfold on_board; cbn [slide_state snake snake_set apples free_tiles]. split.
      * apply Forall_forall. intros x Hx. apply removelast_subset in Hx.
        apply elem_of_cons in Hx as [->|Hx]; [exact Hg|].
        rewrite Forall_forall in H1. exact (H1 x Hx).
      * intros x Hx. destruct (decide (x = h)) as [->|Hne]; [exact Hg|].
        destruct (decide (x = tail)) as [->|Hnt].
        -- rewrite Forall_forall in H1. apply H1, last_elem_of, Hl.
        -- apply H2. set_solver.
  - destruct (queue_same_but_pending s d) as (E1 & E2 & E3 & E4 & _).
    unfold on_board in *. rewrite E1, E2, E3, E4. exact IH.
Qed.

(** [X6]: [move()] returns [True] exactly when the game is still alive
    after the call, and on a finished game it changes nothing. *)
Theorem move_reports_alive (cfg : Config.t) (s s' : SnakeGame) (b : bool)
    (Hm : move cfg s = Some (b, s')) :
  b = alive s' /\ (alive s = false -> b = false /\ s' = s).
Proof.
  destruct (move_alive cfg s s' b Hm) as [Hb Hd]. split; [exact Hb|].
  intros Ha. specialize (Hd Ha). subst s'. split; [congruence | reflexivity].
Qed.

(** [X7]: once the game is over, no sequence of [move()] and
    [queue_direction()] calls raises or changes anything but
    [pending_direction]. *)
Theorem dead_game_frozen (cfg : Config.t) (ops : list op) (s : SnakeGame)
    (Hd : alive s = false) :
  exists s', run_ops cfg ops s = Some s' /\
    s' = set_pending_direction s (pending_direction s') /\ alive s' = false.
Proof.
  destruct (run_ops_dead cfg ops s Hd) as [p Hp].
  replace (set_pending_direction s (pending_direction s)) with s in Hp
    by (destruct s; reflexivity).
  exists (set_pending_direction s p). split; [exact Hp|]. split; [reflexivity|].
  exact Hd.
Qed.

(** [X8]: in every reachable state the snake set shares no cell with the
    apples or the free tiles; when [initial_length <= grid_size], the
    three sets together are exactly the board and every body cell lies on
    it.  (Only apples and free tiles can overlap, see [C1].) *)
Theorem reachable_snake_set_disjoint (cfg : Config.t) (s : SnakeGame)
    (Hr : reachable cfg s) :
  snake_set s ## apples s /\ snake_set s ## free_tiles s /\
  (Config.initial_length cfg <= Config.grid_size cfg ->
   snake_set s ∪ apples s ∪ free_tiles s = all_cells (Config.grid_size cfg) /\
   Forall (in_grid (Config.grid_size cfg)) (snake s)).
Proof.
  destruct (sets_sound_inv cfg s Hr) as (_ & H2 & H3).
  split; [exact H2 | split; [exact H3|]]. intros Hle.
  destruct (on_board_inv cfg s Hle Hr) as [B1 B2].
  destruct (reachable_inv cfg s Hr) as (Hcov & _).
  split; [|exact B1]. apply set_eq. intros x. split.
  - intros Hx. apply elem_of_all_cells. exact (B2 x Hx).
  - intros Hx. unfold covers in Hcov. rewrite elem_of_subseteq in Hcov.
    exact (Hcov x Hx).
Qed.

Lemma move_commit_false_hit (cfg : Config.t) (s s' : SnakeGame) (h : pos) :
  move_commit cfg s h = Some (false, s') -> h ∈ snake_set s.
Proof.
  unfold move_commit. destruct (last (snake s)); [|discriminate].
  destruct (bool_decide (h ∈ snake_set s)) eqn:C; simpl.
  - intros _. apply bool_decide_eq_true_1 in C. exact C.
  - discriminate.
Qed.

Lemma move_false_cause (cfg : Config.t) (s s' : SnakeGame) (h : pos) :
  move cfg s = Some (false, s') -> alive s = true ->
  candidate_head cfg s = Some h ->
  ~ in_grid (Config.grid_size cfg) h \/ h ∈ snake_set s.
Proof.
  unfold move, candidate_head. intros Hm Ha. rewrite Ha in Hm. simpl in Hm.
  destruct (next_head (snake s) (pending_direction s)) as [[x y]|];
    [|discriminate].
  intros Hh. destruct (Config.wrap_walls cfg); injection Hh as <-.
  - destruct (Config.grid_size cfg =? 0); [discriminate|].
    right. exact (move_commit_false_hit _ _ _ _ Hm).
  - destruct (in_bounds cfg x y) eqn:B; simpl in Hm.
    + right. exact (move_commit_false_hit _ _ _ _ Hm).
    + left. unfold in_bounds in B. unfold in_grid. simpl. intros Hg.
      assert (((0 <=? x) && (x <? Config.grid_size cfg) && (0 <=? y)
               && (y <? Config.grid_size cfg)) = true) as B'.
      { apply andb_true_iff; split; [apply andb_true_iff; split;
          [apply andb_true_iff; split|]|]; lia. }
      congruence.
Qed.

(** [X9]: in every reachable state every cell of [snake_set] is a cell of
    the body; so when [move()] returns [False] on a live snake whose
    candidate head is on the board, that head is a body cell: a death by
    self-collision is never spurious (the set may miss body cells, see
    [C2]). *)
Theorem reachable_snake_set_in_body (cfg : Config.t) (s : SnakeGame)
    (Hr : reachable cfg s) :
  (forall x, x ∈ snake_set s -> x ∈ snake s) /\
  (forall s' h, move cfg s = Some (false, s') -> alive s = true ->
     candidate_head cfg s = Some h -> in_grid (Config.grid_size cfg) h ->
     h ∈ snake s).
Proof.
  destruct (sets_sound_inv cfg s Hr) as (H1 & _). split; [exact H1|].
  intros s' h Hm Ha Hh Hg.
  destruct (move_false_cause cfg s s' h Hm Ha Hh) as [N|Hs];
    [contradiction | exact (H1 h Hs)].
Qed.

(** ** Settings: [int()], [str()], [_parse_int] and [apply_settings] *)

(** Strings are read as sequences of code points 0-255.  [str.isspace]
    as [int()] strips: tab to carriage return, the separators 0x1c-0x1f,
    space, NEL (0x85) and NBSP (0xa0). *)
Definition py_isspace (c : ascii) : bool :=
  let n := nat_of_ascii c in
  (Nat.leb 9 n && Nat.leb n 13) || (Nat.leb 28 n && Nat.leb n 32)
  || Nat.eqb n 133 || Nat.eqb n 160.

Definition py_isdigit (c : ascii) : bool :=
  let n := nat_of_ascii c in Nat.leb 48 n && Nat.leb n 57.

Definition digit_value (c : ascii) : Z := Z.of_nat (nat_of_ascii c) - 48.

Fixpoint lstrip (l : list ascii) : list ascii :=
  match l with
  | [] => []
  | c :: l' => if py_isspace c then lstrip l' else l
  end.

Definition strip (l : list ascii) : list ascii := rev (lstrip (rev (lstrip l))).

(** The digits after the first one: single underscores may separate
    digits; the value so far and the number of digits are carried. *)
Fixpoint digit_run (l : list ascii) (acc : Z) (n : nat) : option (Z * nat) :=
  match l with
  | [] => Some (acc, n)
  | c :: l' =>
      if py_isdigit c then digit_run l' (10 * acc + digit_value c) (S n)
      else if Ascii.eqb c "_" then
        match l' with
        | d :: l'' =>
            if py_isdigit d then digit_run l'' (10 * acc + digit_value d) (S n)
            else None
        | [] => None
        end
      else None
  end.

(** [sys.get_int_max_str_digits()] by default. *)
Definition py_int_max_str_digits : nat := 4300.

(** [int(raw)] on an ASCII string; [None] is its [ValueError]. *)
Definition py_int (raw : string) : option Z :=
  let l := strip (list_ascii_of_string raw) in
  let '(sign, body) :=
    match l with
    | c :: r =>
        if Ascii.eqb c "+" then (1, r)
        else if Ascii.eqb c "-" then (-1, r)
        else (1, l)
    | [] => (1, l)
    end in
  match body with
  | d :: r =>
      if py_isdigit d then
        match digit_run r (digit_value d) 1 with
        | Some (v, n) =>
            if Nat.ltb py_int_max_str_digits n then None else Some (sign * v)
        | None => None
        end
      else None
  | [] => None
  end.

(** The decimal digits of [n >= 0], last digit first. *)
Fixpoint rev_digits (fuel : nat) (n : Z) : list ascii :=
  match fuel with
  | O => []
  | S f =>
      ascii_of_nat (48 + Z.to_nat (n mod 10))
        :: (if n / 10 =? 0 then [] else rev_digits f (n / 10))
  end.

(** [str(n)] for an integer. *)
Definition py_str_int (n : Z) : string :=
  string_of_list_ascii
    ((if n <? 0 then ["-"%char] else [])
       ++ rev (rev_digits (S (Z.to_nat (Z.log2 (Z.abs n)))) (Z.abs n))).

Definition digits_value (l : list ascii) : Z :=
  fold_left (fun acc c => 10 * acc + digit_value c) l 0.

Lemma list_ascii_of_string_app (s1 s2 : string) :
  list_ascii_of_string (s1 ++ s2) =
  list_ascii_of_string s1 ++ list_ascii_of_string s2.
Proof. induction s1 as [|c s1 IH]; simpl; [reflexivity | rewrite IH; reflexivity]. Qed.

Lemma lstrip_spaces (w l : list ascii) :
  Forall (fun c => py_isspace c = true) w -> lstrip (w ++ l) = lstrip l.
Proof.
  induction 1 as [|c w Hc _ IH]; [reflexivity|]. simpl. rewrite Hc. exact IH.
Qed.

Lemma lstrip_nonspace (c : ascii) (l : list ascii) :
  py_isspace c = false -> lstrip (c :: l) = c :: l.
Proof. simpl. intros ->. reflexivity. Qed.

Lemma digit_char (d : nat) :
  (d < 10)%nat ->
  py_isdigit (ascii_of_nat (48 + d)) = true /\
  py_isspace (ascii_of_nat (48 + d)) = false /\
  digit_value (ascii_of_nat (48 + d)) = Z.of_nat d.
Proof.
  intros Hd.
  do 10 (destruct d as [|d]; [split; [reflexivity | split; reflexivity]|]).
  lia.
Qed.

Lemma digit_not_sign (c : ascii) :
  py_isdigit c = true -> Ascii.eqb c "+" = false /\ Ascii.eqb c "-" = false.
Proof.
  intros H. split; apply Ascii.eqb_neq; intros ->; discriminate H.
Qed.

Lemma rev_digits_digits (f : nat) (m : Z) :
  0 <= m ->
  Forall (fun c => py_isdigit c = true /\ py_isspace c = false) (rev_digits f m).
Proof.
  revert m. induction f as [|f IH]; intros m Hm; simpl; [constructor|].
  constructor.
  - assert (0 <= m mod 10 < 10) by (apply Z.mod_pos_bound; lia).
    destruct (digit_char (Z.to_nat (m mod 10))) as (D1 & D2 & _); [lia|].
    auto.
  - destruct (m / 10 =? 0); [constructor|]. apply IH.
    Z.div_mod_to_equations. lia.
Qed.

Lemma digit_run_value (l : list ascii) (acc : Z) (n : nat) :
  Forall (fun c => py_isdigit c = true) l ->
  digit_run l acc n =
  Some (fold_left (fun a c => 10 * a + digit_value c) l acc, (n + length l)%nat).
Proof.
  revert acc n. induction l as [|c l IH]; intros acc n H; simpl.
  - rewrite Nat.add_0_r. reflexivity.
  - inversion H as [|? ? Hc Hl]; subst. rewrite Hc, IH by exact Hl.
    f_equal. f_equal. lia.
Qed.

Lemma rev_digits_value (f : nat) (m : Z) :
  (1 <= f)%nat -> 0 <= m < 10 ^ Z.of_nat f ->
  fold_right (fun c a => 10 * a + digit_value c) 0 (rev_digits f m) = m.
Proof.
  revert m. induction f as [|f IH]; intros m Hf Hm; [lia|]. cbn [rev_digits fold_right].
  assert (0 <= m mod 10 < 10) by (apply Z.mod_pos_bound; lia).
  destruct (digit_char (Z.to_nat (m mod 10))) as (_ & _ & D3); [lia|].
  rewrite D3, Z2Nat.id by lia.
  destruct (m / 10 =? 0) eqn:E.
  - apply Z.eqb_eq in E. simpl. Z.div_mod_to_equations. lia.
  - apply Z.eqb_neq in E. rewrite IH.
    + Z.div_mod_to_equations. lia.
    + destruct f; [|lia]. exfalso. simpl in Hm. apply E.
      apply Z.div_small. lia.
    + rewrite Nat2Z.inj_succ, Z.pow_succ_r in Hm by lia.
      split; [Z.div_mod_to_equations; lia|].
      apply Z.div_lt_upper_bound; lia.
Qed.

Lemma rev_digits_length (f : nat) (m k : Z) :
  1 <= k -> 0 <= m < 10 ^ k -> Z.of_nat (length (rev_digits f m)) <= k.
Proof.
  revert m k. induction f as [|f IH]; intros m k Hk Hm; simpl; [lia|].
  destruct (m / 10 =? 0) eqn:E; simpl; [lia|].
  apply Z.eqb_neq in E.
  assert (Hk' : 1 <= k - 1).
  { destruct (Z.eq_dec k 1) as [->|]; [|lia]. exfalso. apply E.
    apply Z.div_small. simpl in Hm. lia. }
  assert (0 <= m / 10 < 10 ^ (k - 1)).
  { split; [Z.div_mod_to_equations; lia|]. apply Z.div_lt_upper_bound; [lia|].
    rewrite <- Z.pow_succ_r by lia. replace (Z.succ (k - 1)) with k by lia. lia. }
  specialize (IH (m / 10) (k - 1) Hk' H). lia.
Qed.

Lemma fold_left_rev {A B} (g : A -> B -> A) (l : list B) (a : A) :
  fold_left g (rev l) a = fold_right (fun c x => g x c) a l.
Proof.
  induction l as [|c l IH]; [reflexivity|]. simpl.
  rewrite fold_left_app, IH. reflexivity.
Qed.

Lemma str_fuel (n : Z) :
  Z.abs n < 10 ^ Z.of_nat (S (Z.to_nat (Z.log2 (Z.abs n)))).
Proof.
  rewrite Nat2Z.inj_succ, Z2Nat.id by apply Z.log2_nonneg.
  destruct (Z.eq_dec (Z.abs n) 0) as [E|E].
  - rewrite E. simpl. lia.
  - assert (H2 : Z.abs n < 2 ^ Z.succ (Z.log2 (Z.abs n)))
      by (apply Z.log2_spec; lia).
    assert (2 ^ Z.succ (Z.log2 (Z.abs n)) <= 10 ^ Z.succ (Z.log2 (Z.abs n))).
    { apply Z.pow_le_mono_l. lia. }
    lia.
Qed.

(** [int(w1 + str(n) + w2) == n] for whitespace [w1], [w2] and any [n] of
    at most 4300 digits. *)
Lemma py_int_py_str_int (n : Z) (w1 w2 : string) :
  Forall (fun c => py_isspace c = true) (list_ascii_of_string w1) ->
  Forall (fun c => py_isspace c = true) (list_ascii_of_string w2) ->
  Z.abs n < 10 ^ Z.of_nat py_int_max_str_digits ->
  py_int (w1 ++ py_str_int n ++ w2) = Some n.
Proof.
  intros Hw1 Hw2 Hn. unfold py_int, py_str_int.
  rewrite !list_ascii_of_string_app, list_ascii_of_string_of_list_ascii.
  set (f := S (Z.to_nat (Z.log2 (Z.abs n)))).
  pose proof (rev_digits_digits f (Z.abs n) ltac:(lia)) as HD.
  assert (HRD : exists c RD', rev_digits f (Z.abs n) = c :: RD')
    by (subst f; simpl; eauto).
  destruct HRD as (c & RD' & ERD).
  set (D := rev (rev_digits f (Z.abs n))).
  assert (HDD : Forall (fun c => py_isdigit c = true /\ py_isspace c = false) D)
    by (apply Forall_rev; exact HD).
  assert (HD0 : exists d r, D = d :: r) by
    (subst D; rewrite ERD; simpl; destruct (rev RD') as [|x l]; simpl; eauto).
  destruct HD0 as (d & r & ED).
  set (sgn := if n <? 0 then ["-"%char] else []).
  (* stripping *)
  assert (Hstrip : strip (list_ascii_of_string w1 ++ (sgn ++ D) ++
                          list_ascii_of_string w2) = sgn ++ D).
  { unfold strip. rewrite lstrip_spaces by exact Hw1.
    assert (E1 : lstrip ((sgn ++ D) ++ list_ascii_of_string w2) =
                 (sgn ++ D) ++ list_ascii_of_string w2).
    { rewrite ED. subst sgn. destruct (n <? 0); simpl.
      - reflexivity.
      - rewrite ED in HDD. inversion HDD as [|? ? [_ Hs] _]; subst.
        rewrite Hs. reflexivity. }
    rewrite E1, rev_app_distr, lstrip_spaces by (apply Forall_rev; exact Hw2).
    rewrite rev_app_distr.
    assert (ER : rev D = c :: RD') by (subst D; rewrite rev_involutive; exact ERD).
    pose proof HD as HD'. rewrite ERD in HD'.
    apply Forall_cons in HD' as [[_ Hc] _].
    rewrite ER, <- app_comm_cons, lstrip_nonspace by exact Hc.
    rewrite app_comm_cons, <- ER, <- rev_app_distr. apply rev_involutive. }
  rewrite Hstrip.
  assert (Hdig : Forall (fun c => py_isdigit c = true) D)
    by (eapply Forall_impl; [exact HDD | intros ? []; assumption]).
  assert (Hval : fold_left (fun a c => 10 * a + digit_value c) D 0 = Z.abs n).
  { subst D. rewrite fold_left_rev. apply rev_digits_value; [subst f; lia|].
    split; [lia | apply str_fuel]. }
  assert (Hlen : (length D <= py_int_max_str_digits)%nat).
  { subst D. rewrite length_rev.
    assert (H1 : 1 <= Z.of_nat py_int_max_str_digits)
      by (unfold py_int_max_str_digits; lia).
    pose proof (rev_digits_length f (Z.abs n) _ H1 (conj (Z.abs_nonneg n) Hn)).
    lia. }
  rewrite ED in Hdig, Hval, Hlen. inversion Hdig as [|? ? Hd Hr]; subst.
  pose proof (digit_not_sign d Hd) as [Np Nm].
  assert (Hrun : digit_run r (digit_value d) 1 = Some (Z.abs n, length (d :: r))).
  { rewrite digit_run_value by exact Hr. rewrite <- Hval. simpl.
    f_equal. }
  subst sgn. destruct (n <? 0) eqn:Hlt; simpl.
  - rewrite ED, Hd, Hrun. cbn [Ascii.eqb].
    replace (Nat.ltb py_int_max_str_digits (length (d :: r))) with false
      by (symmetry; apply Nat.ltb_ge; lia).
    f_equal. apply Z.ltb_lt in Hlt. lia.
  - rewrite ED, Np, Nm, Hd, Hrun.
    replace (Nat.ltb py_int_max_str_digits (length (d :: r))) with false
      by (symmetry; apply Nat.ltb_ge; lia).
    f_equal. apply Z.ltb_ge in Hlt. lia.
Qed.

Definition MIN_GRID_SIZE : Z := 8.
Definition MAX_GRID_SIZE : Z := 60.
Definition MIN_CELL_SIZE : Z := 12.
Definition MAX_CELL_SIZE : Z := 48.
Definition MIN_SPEED_MS : Z := 40.
Definition MAX_SPEED_MS : Z := 500.
Definition MIN_APPLES : Z := 1.
Definition MAX_APPLES : Z := 100.
Definition MIN_INITIAL_LENGTH : Z := 2.

(** The [ValueError]s of [_parse_int] and the apple-count error of
    [apply_settings], each with the data of its message. *)
Inductive setting_error :=
  | NotInteger (label : string)
  | OutOfRange (label : string) (low high : Z)
  | TooManyApples (max_apples_by_tiles : Z).

Definition error_message (e : setting_error) : string :=
  match e with
  | NotInteger label => label ++ " must be an integer."
  | OutOfRange label low high =>
      label ++ " must be between " ++ py_str_int low ++ " and "
        ++ py_str_int high ++ "."
  | TooManyApples m =>
      "Apples is too high for the selected grid and snake length. "
        ++ "Maximum allowed is " ++ py_str_int m ++ "."
  end.

Definition parse_int (raw : string) (low high : Z) (label : string)
    : setting_error + Z :=
  match py_int raw with
  | None => inl (NotInteger label)
  | Some value =>
      if (low <=? value) && (value <=? high) then inr value
      else inl (OutOfRange label low high)
  end.

(** The [tk.StringVar] / [tk.BooleanVar] contents of the settings panel. *)
Record SettingsForm := mkForm {
  grid_size_var : string;
  cell_size_var : string;
  speed_var : string;
  apples_var : string;
  length_setting_var : string;
  wrap_var : bool;
  show_grid_var : bool
}.

Definition sbind {E A B} (m : E + A) (k : A -> E + B) : E + B :=
  match m with inl e => inl e | inr a => k a end.

(** The checks of [apply_settings] (lines 398-422) and the config it builds. *)
Definition validate_settings (f : SettingsForm) : setting_error + Config.t :=
  sbind (parse_int (grid_size_var f) MIN_GRID_SIZE MAX_GRID_SIZE "Grid size")
  (fun grid_size =>
  sbind (parse_int (cell_size_var f) MIN_CELL_SIZE MAX_CELL_SIZE "Cell size")
  (fun cell_size =>
  sbind (parse_int (speed_var f) MIN_SPEED_MS MAX_SPEED_MS "Speed")
  (fun speed_ms =>
  sbind (parse_int (apples_var f) MIN_APPLES MAX_APPLES "Apples")
  (fun apples =>
  sbind (parse_int (length_setting_var f) MIN_INITIAL_LENGTH grid_size
           "Initial length")
  (fun initial_length =>
    let max_apples_by_tiles := Z.max 1 (grid_size * grid_size - initial_length) in
    if apples >? max_apples_by_tiles then inl (TooManyApples max_apples_by_tiles)
    else inr (Config.mk grid_size cell_size speed_ms apples initial_length
                (wrap_var f) (show_grid_var f))))))).

(** The values [_build_controls] puts in the form (lines 256-262). *)
Definition form_of_config (cfg : Config.t) : SettingsForm :=
  mkForm (py_str_int (Config.grid_size cfg)) (py_str_int (Config.cell_size cfg))
    (py_str_int (Config.speed_ms cfg)) (py_str_int (Config.apples cfg))
    (py_str_int (Config.initial_length cfg))
    (Config.wrap_walls cfg) (Config.show_grid cfg).

Definition valid_config (cfg : Config.t) : Prop :=
  MIN_GRID_SIZE <= Config.grid_size cfg <= MAX_GRID_SIZE /\
  MIN_CELL_SIZE <= Config.cell_size cfg <= MAX_CELL_SIZE /\
  MIN_SPEED_MS <= Config.speed_ms cfg <= MAX_SPEED_MS /\
  MIN_APPLES <= Config.apples cfg <= MAX_APPLES /\
  MIN_INITIAL_LENGTH <= Config.initial_length cfg <= Config.grid_size cfg /\
  Config.apples cfg <=
    Z.max 1 (Config.grid_size cfg * Config.grid_size cfg - Config.initial_length cfg).

Lemma string_app_empty (s : string) : (s ++ "")%string = s.
Proof. induction s as [|c s IH]; [reflexivity | exact (f_equal (String c) IH)]. Qed.

Lemma parse_int_ok (raw : string) (low high : Z) (label : string) (v : Z) :
  parse_int raw low high label = inr v -> py_int raw = Some v /\ low <= v <= high.
Proof.
  unfold parse_int. destruct (py_int raw) as [x|]; [|discriminate].
  destruct ((low <=? x) && (x <=? high)) eqn:E; intros H; inversion H; subst.
  apply andb_true_iff in E as [E1 E2]. apply Z.leb_le in E1, E2. auto.
Qed.

Lemma parse_int_str (n low high : Z) (label : string) :
  low <= n <= high -> Z.abs n < 10 ^ Z.of_nat py_int_max_str_digits ->
  parse_int (py_str_int n) low high label = inr n.
Proof.
  intros Hr Hn. unfold parse_int.
  rewrite <- (string_app_empty (py_str_int n)).
  change (py_str_int n ++ "")%string with ("" ++ py_str_int n ++ "")%string.
  rewrite py_int_py_str_int by (constructor || exact Hn).
  replace ((low <=? n) && (n <=? high)) with true; [reflexivity|].
  symmetry. apply andb_true_iff. split; apply Z.leb_le; lia.
Qed.

Lemma validate_settings_sound (f : SettingsForm) (cfg : Config.t) :
  validate_settings f = inr cfg ->
  valid_config cfg /\
  py_int (grid_size_var f) = Some (Config.grid_size cfg) /\
  py_int (cell_size_var f) = Some (Config.cell_size cfg) /\
  py_int (speed_var f) = Some (Config.speed_ms cfg) /\
  py_int (apples_var f) = Some (Config.apples cfg) /\
  py_int (length_setting_var f) = Some (Config.initial_length cfg) /\
  Config.wrap_walls cfg = wrap_var f /\ Config.show_grid cfg = show_grid_var f.
Proof.
  intros H. unfold validate_settings in H.
  destruct (parse_int (grid_size_var f) _ _ _) as [|g] eqn:E1; [discriminate|].
  destruct (parse_int (cell_size_var f) _ _ _) as [|c] eqn:E2; [discriminate|].
  destruct (parse_int (speed_var f) _ _ _) as [|sp] eqn:E3; [discriminate|].
  destruct (parse_int (apples_var f) _ _ _) as [|a] eqn:E4; [discriminate|].
  cbn [sbind] in H.
  destruct (parse_int (length_setting_var f) _ _ _) as [|l] eqn:E5; [discriminate|].
  simpl in H. destruct (a >? Z.max 1 (g * g - l)) eqn:E6; [discriminate|].
  injection H as <-.
  apply parse_int_ok in E1 as [P1 R1], E2 as [P2 R2], E3 as [P3 R3],
    E4 as [P4 R4], E5 as [P5 R5].
  rewrite Z.gtb_ltb in E6. apply Z.ltb_ge in E6.
  unfold valid_config; simpl. auto 20.
Qed.


(** [X3]: pressing "Apply Settings" on the values the panel shows for a valid
    config rebuilds exactly that config: [int(str(v)) == v] for each field. *)
Theorem apply_settings_form_roundtrip (cfg : Config.t) (H : valid_config cfg) :
  validate_settings (form_of_config cfg) = inr cfg.
Proof.
  destruct H as (H1 & H2 & H3 & H4 & H5 & H6).
  unfold MIN_GRID_SIZE, MAX_GRID_SIZE, MIN_CELL_SIZE, MAX_CELL_SIZE,
    MIN_SPEED_MS, MAX_SPEED_MS, MIN_APPLES, MAX_APPLES, MIN_INITIAL_LENGTH in *.
  assert (Hb : forall n, 0 <= n <= 500 ->
                 Z.abs n < 10 ^ Z.of_nat py_int_max_str_digits).
  { intros n Hn. assert (10 ^ 3 <= 10 ^ Z.of_nat py_int_max_str_digits)
      by (apply Z.pow_le_mono_r; unfold py_int_max_str_digits; lia).
    lia. }
  unfold validate_settings, form_of_config, MIN_GRID_SIZE, MAX_GRID_SIZE,
    MIN_CELL_SIZE, MAX_CELL_SIZE, MIN_SPEED_MS, MAX_SPEED_MS, MIN_APPLES,
    MAX_APPLES, MIN_INITIAL_LENGTH;
    cbn [grid_size_var cell_size_var speed_var apples_var length_setting_var
         wrap_var show_grid_var].
  rewrite (parse_int_str (Config.grid_size cfg)) by (first [apply Hb; lia | lia]).
  cbn [sbind].
  rewrite (parse_int_str (Config.cell_size cfg)) by (first [apply Hb; lia | lia]).
  cbn [sbind].
  rewrite (parse_int_str (Config.speed_ms cfg)) by (first [apply Hb; lia | lia]).
  cbn [sbind].
  rewrite (parse_int_str (Config.apples cfg)) by (first [apply Hb; lia | lia]).
  cbn [sbind].
  rewrite (parse_int_str (Config.initial_length cfg)) by (first [apply Hb; lia | lia]).
  cbn [sbind].
  replace (Config.apples cfg >? _) with false
    by (symmetry; rewrite Z.gtb_ltb; apply Z.ltb_ge; lia).
  destruct cfg; reflexivity.
Qed.

(** ** Sizes of the board and of the spawned snake *)

Lemma NoDup_map_inj {A B} (f : A -> B) (l : list A) :
  (forall x y, f x = f y -> x = y) -> NoDup l -> NoDup (map f l).
Proof.
  intros Hf. induction l as [|x l IH]; simpl; [constructor|].
  rewrite !NoDup_cons. intros [Hx Hl]. split; [|exact (IH Hl)].
  intros Hm. apply list_elem_of_In, in_map_iff in Hm as (y & Hy & Hin).
  apply Hf in Hy. subst. apply Hx, list_elem_of_In, Hin.
Qed.

Lemma NoDup_range (n : Z) : NoDup (range n).
Proof. apply NoDup_map_inj; [lia | apply NoDup_seq]. Qed.

Lemma length_bind_uniform {A B} (f : A -> list B) (l : list A) (k : nat) :
  (forall x, length (f x) = k) -> length (l ≫= f) = (length l * k)%nat.
Proof.
  intros Hf. induction l as [|x l IH]; [reflexivity|].
  rewrite bind_cons, length_app, Hf, IH. simpl. lia.
Qed.

Lemma size_all_cells (n : Z) :
  0 <= n -> Z.of_nat (size (all_cells n)) = n * n.
Proof.
  intros Hn. unfold all_cells. rewrite size_list_to_set.
  - rewrite (length_bind_uniform _ _ (length (range n))).
    + rewrite length_range. lia.
    + intros x. rewrite (length_bind_uniform _ _ 1); [lia | reflexivity].
  - apply NoDup_bind; [| | apply NoDup_range].
    + intros x1 x2 y _ _ H1 H2.
      apply list_elem_of_bind in H1 as (y1 & Hy1 & _), H2 as (y2 & Hy2 & _).
      apply list_elem_of_singleton in Hy1, Hy2. congruence.
    + intros x _. apply NoDup_bind; [| | apply NoDup_range].
      * intros y1 y2 c _ _ H1 H2.
        apply list_elem_of_singleton in H1, H2. congruence.
      * intros y _. apply NoDup_singleton.
Qed.

(** [X4]: a valid config always starts a game: whatever the random stream,
    [reset()] succeeds, the snake has [initial_length] cells on the board,
    and there are exactly [apples] apples, none of them under the snake. *)
Theorem valid_config_reset (cfg : Config.t) (r : nat -> nat)
    (H : valid_config cfg) :
  exists s, reset cfg r = Some s /\
    Z.of_nat (length (snake s)) = Config.initial_length cfg /\
    Forall (in_grid (Config.grid_size cfg)) (snake s) /\
    Z.of_nat (size (apples s)) = Config.apples cfg /\
    apples s ## snake_set s /\
    apples s ⊆ all_cells (Config.grid_size cfg).
Proof.
  destruct H as (H1 & _ & _ & H4 & H5 & H6).
  unfold MIN_GRID_SIZE, MAX_GRID_SIZE, MIN_APPLES, MAX_APPLES,
    MIN_INITIAL_LENGTH in *.
  destruct (spawn_positions_exists (Config.grid_size cfg)
              (Config.initial_length cfg) ltac:(lia)) as [ps Hps].
  pose proof (spawn_positions_in_grid (Config.grid_size cfg)
                (Config.initial_length cfg) ps ltac:(lia) Hps) as Hg.
  assert (Hi : Forall (index_ok (Config.grid_size cfg)) ps).
  { eapply Forall_impl; [exact Hg | apply in_grid_index_ok]. }
  assert (Hr : reset cfg r = Some (replenish_apples cfg (spawned cfg ps r)))
    by (apply reset_some; eauto).
  exists (replenish_apples cfg (spawned cfg ps r)). split; [exact Hr|].
  pose proof (reach_reset cfg r _ Hr) as Hreach.
  destruct (sets_sound_inv cfg _ Hreach) as (_ & Hd & _).
  destruct (on_board_inv cfg _ ltac:(lia) Hreach) as [Hb Hb2].
  destruct (replenish_apples_spec cfg (spawned cfg ps r))
    as (E1 & _ & _ & _ & _ & _ & _ & _ & _ & _ & _ & E12).
  destruct (spawn_positions_some _ _ _ Hps) as [_ [hx Eps]].
  assert (Hlen : Z.of_nat (length ps) = Config.initial_length cfg)
    by (rewrite Eps, length_map, length_range; lia).
  split; [rewrite E1; exact Hlen|].
  split; [exact Hb|].
  split.
  - rewrite E12. unfold replenish_target, spawned; cbn [apples free_tiles].
    assert (Hnd : NoDup ps).
    { rewrite Eps. apply NoDup_map_inj; [|apply NoDup_range].
      intros i j Hij. injection Hij. lia. }
    assert (Hsub : (list_to_set ps : gset pos) ⊆ all_cells (Config.grid_size cfg)).
    { intros c Hc. apply elem_of_list_to_set in Hc. apply elem_of_all_cells.
      rewrite Forall_forall in Hg. exact (Hg c Hc). }
    assert (Hsz : size (all_cells (Config.grid_size cfg) ∖ list_to_set ps)
                  = (size (all_cells (Config.grid_size cfg))
                     - size (list_to_set ps : gset pos))%nat)
      by (rewrite size_difference by exact Hsub; reflexivity).
    rewrite Hsz, size_list_to_set by exact Hnd.
    pose proof (subseteq_size _ _ Hsub) as Hle.
    rewrite size_list_to_set in Hle by exact Hnd.
    pose proof (size_all_cells (Config.grid_size cfg) ltac:(lia)).
    rewrite size_empty. lia.
  - split; [set_solver|].
    intros c Hc. apply elem_of_all_cells, Hb2. set_solver.
Qed.

Lemma reset_snake_nonempty (cfg : Config.t) (r : nat -> nat) (s : SnakeGame) :
  reset cfg r = Some s -> snake s <> [].
Proof.
  intros H. apply reset_fields in H as [Hp _].
  apply spawn_positions_some in Hp as [Hl [hx E]]. rewrite E.
  unfold range. destruct (Z.to_nat (Config.initial_length cfg)) eqn:En; [lia|].
  simpl. discriminate.
Qed.

Lemma valid_config_reset_some (cfg : Config.t) (r : nat -> nat) :
  valid_config cfg -> exists s, reset cfg r = Some s.
Proof.
  intros (H1 & _ & _ & _ & H5 & _).
  unfold MIN_GRID_SIZE, MAX_GRID_SIZE, MIN_INITIAL_LENGTH in *.
  destruct (spawn_positions_exists (Config.grid_size cfg)
              (Config.initial_length cfg) ltac:(lia)) as [ps Hps].
  pose proof (spawn_positions_in_grid (Config.grid_size cfg)
                (Config.initial_length cfg) ps ltac:(lia) Hps) as Hg.
  exists (replenish_apples cfg (spawned cfg ps r)). apply reset_some.
  exists ps. split; [exact Hps|]. split; [|reflexivity].
  eapply Forall_impl; [exact Hg | apply in_grid_index_ok].
Qed.

Lemma lstrip_all_spaces (w : list ascii) :
  Forall (fun c => py_isspace c = true) w -> lstrip w = [].
Proof. intros H. rewrite <- (app_nil_r w). rewrite lstrip_spaces by exact H. reflexivity. Qed.

(** [X12]: a settings field that is empty, blank, or holds only a sign between
    blanks is reported as "<label> must be an integer.", whatever the
    bounds. *)
Theorem parse_int_blank (w1 sg w2 : string) (low high : Z) (label : string)
    (Hw1 : Forall (fun c => py_isspace c = true) (list_ascii_of_string w1))
    (Hw2 : Forall (fun c => py_isspace c = true) (list_ascii_of_string w2))
    (Hsg : sg = ""%string \/ sg = "+"%string \/ sg = "-"%string) :
  parse_int (w1 ++ sg ++ w2) low high label = inl (NotInteger label).
Proof.
  unfold parse_int, py_int. rewrite !list_ascii_of_string_app.
  unfold strip. rewrite lstrip_spaces by exact Hw1.
  destruct Hsg as [-> | [-> | ->]]; cbn [list_ascii_of_string app].
  - rewrite (lstrip_all_spaces (list_ascii_of_string w2)) by exact Hw2.
    reflexivity.
  - rewrite lstrip_nonspace by reflexivity. cbn [rev].
    rewrite lstrip_spaces by (apply Forall_rev; exact Hw2).
    reflexivity.
  - rewrite lstrip_nonspace by reflexivity. cbn [rev].
    rewrite lstrip_spaces by (apply Forall_rev; exact Hw2).
    reflexivity.
Qed.

(** ** The application: [SnakeApp]'s handlers *)

Definition set_running (s : SnakeGame) (v : bool) : SnakeGame :=
  mkGame (snake s) (snake_set s) (apples s) (free_tiles s) (direction s)
    (pending_direction s) v (alive s) (score s) (rng s).

(** The state of [SnakeApp] the handlers read and write: the config, the
    game, whether a [root.after] callback is scheduled ([after_id is not
    None]) and the text of [state_var].  The game's [rng] is the module
    [random]'s stream, shared by every game the app creates. *)
Record App := mkApp {
  app_config : Config.t;
  game : SnakeGame;
  after_pending : bool;
  state_text : string
}.

Definition set_game (a : App) (g : SnakeGame) : App :=
  mkApp (app_config a) g (after_pending a) (state_text a).
Definition set_state_text (a : App) (t : string) : App :=
  mkApp (app_config a) (game a) (after_pending a) t.
Definition set_after_pending (a : App) (v : bool) : App :=
  mkApp (app_config a) (game a) v (state_text a).

(** [SnakeConfig()] *)
Definition default_config : Config.t := Config.mk 20 28 100 3 3 false true.

(** [SnakeApp.__init__]; [None] is an exception of [SnakeGame(...)]. *)
Definition app_init (r : nat -> nat) : option App :=
  match reset default_config r with
  | None => None
  | Some g => Some (mkApp default_config g false "State: Ready")
  end.

Definition cancel_loop (a : App) : App := set_after_pending a false.

(** [tick]: [root.after] schedules the next tick on success. *)
Definition tick (a : App) : option App :=
  let a := cancel_loop a in
  if negb (running (game a)) then Some a else
  match move (app_config a) (game a) with
  | None => None
  | Some (false, g) =>
      Some (set_state_text (set_game a (set_running g false)) "State: Game Over")
  | Some (true, g) => Some (set_after_pending (set_game a g) true)
  end.

Definition start_game (a : App) : option App :=
  let g :=
    if negb (alive (game a)) then reset (app_config a) (rng (game a))
    else Some (game a) in
  match g with
  | None => None
  | Some g =>
      tick (set_state_text (set_game a (set_running g true)) "State: Running")
  end.

Definition toggle_pause (a : App) : option App :=
  if negb (alive (game a)) then Some a else
  let a := set_game a (set_running (game a) (negb (running (game a)))) in
  if running (game a) then tick (set_state_text a "State: Running")
  else Some (cancel_loop (set_state_text a "State: Paused")).

Definition reset_game (a : App) : option App :=
  let a := cancel_loop a in
  match reset (app_config a) (rng (game a)) with
  | None => None
  | Some g => Some (set_state_text (set_game a g) "State: Ready")
  end.

(** [apply_settings]: an invalid form only shows an error box. *)
Definition apply_settings (a : App) (f : SettingsForm) : option App :=
  match validate_settings f with
  | inl _ => Some a
  | inr cfg =>
      match reset cfg (rng (game a)) with
      | None => None
      | Some g => Some (mkApp cfg g false "State: Ready")
      end
  end.

(** [_bind_keys] *)
Inductive key_action := QueueDir (d : string) | TogglePause.

Definition key_bindings : list (string * key_action) :=
  [("<Up>", QueueDir "up"); ("<Down>", QueueDir "down");
   ("<Left>", QueueDir "left"); ("<Right>", QueueDir "right");
   ("w", QueueDir "up"); ("s", QueueDir "down");
   ("a", QueueDir "left"); ("d", QueueDir "right");
   ("<space>", TogglePause)]%string.

Definition key_press (a : App) (seq : string) : option App :=
  match find (fun kb => String.eqb kb.1 seq) key_bindings with
  | None => Some a
  | Some (_, QueueDir d) => Some (set_game a (queue_direction (game a) d))
  | Some (_, TogglePause) => toggle_pause a
  end.

(** What the user (or the event loop) can do: press a key, click one of
    the four buttons (with the settings form as it stands), or let the
    scheduled [root.after] callback fire. *)
Inductive event :=
  | KeyPress (seq : string)
  | ClickStart
  | ClickPause
  | ClickReset
  | ClickApply (f : SettingsForm)
  | TimerFires.

Definition app_step (a : App) (e : event) : option App :=
  match e with
  | KeyPress seq => key_press a seq
  | ClickStart => start_game a
  | ClickPause => toggle_pause a
  | ClickReset => reset_game a
  | ClickApply f => apply_settings a f
  | TimerFires => if after_pending a then tick a else Some a
  end.

Inductive app_reachable : App -> Prop :=
  | app_reach_init r a : app_init r = Some a -> app_reachable a
  | app_reach_step a e a' :
      app_reachable a -> app_step a e = Some a' -> app_reachable a'.

(** What the handlers maintain. *)
Definition app_inv (a : App) : Prop :=
  valid_config (app_config a) /\
  snake (game a) <> [] /\
  after_pending a = running (game a) /\
  (running (game a) = true ->
     alive (game a) = true /\ state_text a = "State: Running"%string) /\
  (alive (game a) = false -> state_text a = "State: Game Over"%string).

Lemma move_running (cfg : Config.t) (s s' : SnakeGame) (b : bool) :
  move cfg s = Some (b, s') -> running s' = running s.
Proof.
  intros H. apply move_cases in H
    as [[_ ->] | [[_ ->] | (_ & _ & h & _ & _ & Hc)]]; [reflexivity|reflexivity|].
  apply move_commit_true in Hc as (tail & _ & _ & [[_ ->] | [_ ->]]).
  - destruct (replenish_apples_spec cfg
      (grow_state (set_direction s (pending_direction s)) h))
      as (_ & _ & _ & _ & E & _). exact E.
  - destruct (replenish_apples_spec cfg
      (slide_state (set_direction s (pending_direction s)) h tail))
      as (_ & _ & _ & _ & E & _). exact E.
Qed.

Lemma move_snake_nonempty (cfg : Config.t) (s s' : SnakeGame) (b : bool) :
  move cfg s = Some (b, s') -> snake s <> [] -> snake s' <> [].
Proof.
  intros H Hn. apply move_length_score in H.
  destruct (snake s) as [|x l]; [congruence|].
  destruct (snake s') as [|y l']; [|discriminate].
  simpl in H. lia.
Qed.

Lemma last_none {A} (l : list A) : last l = None -> l = [].
Proof.
  induction l as [|x l IH]; [reflexivity|].
  destruct l as [|y l]; [discriminate|].
  intros H. specialize (IH H). discriminate.
Qed.

Lemma move_commit_some (cfg : Config.t) (s : SnakeGame) (h : pos) :
  snake s <> [] -> exists b s', move_commit cfg s h = Some (b, s').
Proof.
  intros Hn. unfold move_commit.
  destruct (last (snake s)) eqn:E.
  - destruct (_ && _); eauto.
  - apply last_none in E. contradiction.
Qed.

Lemma move_some (cfg : Config.t) (s : SnakeGame) :
  snake s <> [] -> 0 < Config.grid_size cfg ->
  exists b s', move cfg s = Some (b, s').
Proof.
  intros Hn Hp. unfold move.
  destruct (alive s); simpl; [|eauto].
  destruct (next_head (snake s) (pending_direction s)) as [[nx ny]|] eqn:Eh;
    [| destruct (snake s) as [|[]]; [congruence | discriminate]].
  assert (Hn' : forall d, snake (set_direction s d) <> [])
    by (intros d; exact Hn).
  destruct (Config.wrap_walls cfg).
  - replace (Config.grid_size cfg =? 0) with false by (symmetry; apply Z.eqb_neq; lia).
    apply move_commit_some, Hn'.
  - destruct (negb (in_bounds cfg _ _)); [eauto|].
    apply move_commit_some, Hn'.
Qed.

Lemma set_running_fields (g : SnakeGame) (v : bool) :
  snake (set_running g v) = snake g /\ running (set_running g v) = v /\
  alive (set_running g v) = alive g /\ rng (set_running g v) = rng g.
Proof. auto. Qed.

Lemma reset_app_inv (cfg : Config.t) (r : nat -> nat) (g : SnakeGame) :
  reset cfg r = Some g ->
  snake g <> [] /\ running g = false /\ alive g = true.
Proof.
  intros H. split; [exact (reset_snake_nonempty _ _ _ H)|].
  apply reset_fields in H as (_ & _ & _ & _ & E5 & E6 & _). auto.
Qed.

Lemma tick_inv (a : App) :
  valid_config (app_config a) -> snake (game a) <> [] ->
  (running (game a) = true ->
     alive (game a) = true /\ state_text a = "State: Running"%string) ->
  (alive (game a) = false -> state_text a = "State: Game Over"%string) ->
  exists a', tick a = Some a' /\ app_inv a'.
Proof.
  intros Hv Hn Hr Hd. unfold tick, cancel_loop, set_after_pending; cbn [game app_config].
  destruct (running (game a)) eqn:Er; simpl.
  - assert (Hp : 0 < Config.grid_size (app_config a))
      by (destruct Hv as [H1 _]; unfold MIN_GRID_SIZE in H1; lia).
    destruct (move_some (app_config a) (game a) Hn Hp) as (b & g & Hm).
    rewrite Hm. pose proof (move_alive _ _ _ _ Hm) as [Hb _].
    pose proof (move_running _ _ _ _ Hm) as Hrun.
    pose proof (move_snake_nonempty _ _ _ _ Hm Hn) as Hn'.
    destruct (Hr eq_refl) as [_ Ht].
    destruct b; eexists; (split; [reflexivity|]);
      unfold app_inv, set_state_text, set_game, set_after_pending; simpl.
    + split; [exact Hv|]. split; [exact Hn'|]. rewrite Hrun, Er.
      split; [reflexivity|]. split; [intros _; split; [congruence | exact Ht]|].
      congruence.
    + split; [exact Hv|]. split; [exact Hn'|]. split; [reflexivity|].
      split; [discriminate|]. reflexivity.
  - eexists. split; [reflexivity|]. unfold app_inv; simpl.
    split; [exact Hv|]. split; [exact Hn|]. split; [symmetry; exact Er|].
    split; [congruence|]. exact Hd.
Qed.

Lemma app_inv_step (a : App) (e : event) :
  app_inv a -> exists a', app_step a e = Some a' /\ app_inv a'.
Proof.
  intros Hinv. pose proof Hinv as (Hv & Hn & Hp & Hr & Hd).
  assert (Htoggle : exists a', toggle_pause a = Some a' /\ app_inv a').
  { unfold toggle_pause. destruct (alive (game a)) eqn:Ea; simpl.
    - destruct (running (game a)) eqn:Er; simpl.
      + eexists. split; [reflexivity|].
        unfold app_inv, cancel_loop, set_after_pending, set_state_text, set_game;
          simpl. split; [exact Hv|]. split; [exact Hn|]. split; [reflexivity|].
        split; [discriminate|]. congruence.
      + apply tick_inv; unfold set_state_text, set_game; simpl;
          [exact Hv | exact Hn | auto | congruence].
    - exists a. split; [reflexivity | exact Hinv]. }
  destruct e as [seq| | | |f|]; simpl.
  - unfold key_press.
    destruct (find _ key_bindings) as [[? [d|]]|].
    + eexists. split; [reflexivity|].
      destruct (queue_same_but_pending (game a) d)
        as (E1 & _ & _ & _ & _ & E6 & E7 & _).
      unfold app_inv, set_game; simpl. rewrite E1, E6, E7. exact Hinv.
    + exact Htoggle.
    + exists a. split; [reflexivity | exact Hinv].
  - unfold start_game.
    destruct (negb (alive (game a))) eqn:Ea.
    + destruct (valid_config_reset_some (app_config a) (rng (game a)) Hv) as [g Hg].
      rewrite Hg. destruct (reset_app_inv _ _ _ Hg) as (Hn' & _ & Ha').
      apply tick_inv; unfold set_state_text, set_game; simpl;
        [exact Hv | exact Hn' | auto | congruence].
    + apply negb_false_iff in Ea.
      apply tick_inv; unfold set_state_text, set_game; simpl;
        [exact Hv | exact Hn | auto | congruence].
  - exact Htoggle.
  - unfold reset_game, cancel_loop, set_after_pending; simpl.
    destruct (valid_config_reset_some (app_config a) (rng (game a)) Hv) as [g Hg].
    rewrite Hg. destruct (reset_app_inv _ _ _ Hg) as (Hn' & Hr' & Ha').
    eexists. split; [reflexivity|]. unfold app_inv, set_state_text, set_game; simpl.
    split; [exact Hv|]. split; [exact Hn'|]. split; [congruence|].
    split; [congruence|]. congruence.
  - unfold apply_settings. destruct (validate_settings f) as [err|cfg] eqn:Ev.
    + exists a. split; [reflexivity | exact Hinv].
    + pose proof (validate_settings_sound f cfg Ev) as [Hv' _].
      destruct (valid_config_reset_some cfg (rng (game a)) Hv') as [g Hg].
      rewrite Hg. destruct (reset_app_inv _ _ _ Hg) as (Hn' & Hr' & Ha').
      eexists. split; [reflexivity|]. unfold app_inv; simpl.
      split; [exact Hv'|]. split; [exact Hn'|]. split; [congruence|].
      split; [congruence|]. congruence.
  - destruct (after_pending a) eqn:Ep.
    + apply tick_inv; assumption.
    + exists a. split; [reflexivity | exact Hinv].
Qed.

Lemma default_config_valid : valid_config default_config.
Proof.
  unfold valid_config, default_config, MIN_GRID_SIZE, MAX_GRID_SIZE,
    MIN_CELL_SIZE, MAX_CELL_SIZE, MIN_SPEED_MS, MAX_SPEED_MS, MIN_APPLES,
    MAX_APPLES, MIN_INITIAL_LENGTH; simpl. lia.
Qed.

Lemma app_init_some (r : nat -> nat) : exists a, app_init r = Some a /\ app_inv a.
Proof.
  unfold app_init.
  destruct (valid_config_reset_some default_config r default_config_valid) as [g Hg].
  rewrite Hg. destruct (reset_app_inv _ _ _ Hg) as (Hn & Hr & Ha).
  eexists. split; [reflexivity|]. unfold app_inv; simpl.
  split; [exact default_config_valid|]. split; [exact Hn|].
  split; [congruence|]. split; [congruence|]. congruence.
Qed.

Lemma app_reachable_inv (a : App) : app_reachable a -> app_inv a.
Proof.
  induction 1 as [r a Ha | a e a' _ IH Hs].
  - destruct (app_init_some r) as (a0 & H0 & Hi). congruence.
  - destruct (app_inv_step a e IH) as (a1 & H1 & Hi). congruence.
Qed.

(** [X10]: the status line and the timer follow the game in every state the app
    reaches: a [root.after] tick is scheduled exactly when the game is
    running; a running game is alive and the status reads
    "State: Running"; a dead game's status reads "State: Game Over"; and
    the active config is always within the settings ranges. *)
Theorem app_status_consistent (a : App) (Ha : app_reachable a) :
  valid_config (app_config a) /\
  after_pending a = running (game a) /\
  (running (game a) = true ->
     alive (game a) = true /\ state_text a = "State: Running"%string) /\
  (alive (game a) = false -> state_text a = "State: Game Over"%string).
Proof.
  destruct (app_reachable_inv a Ha) as (H1 & _ & H3 & H4 & H5). auto.
Qed.

(** [X11]: no handler ever raises: from any state the app reaches, every key
    press, button click (with any form contents) and timer callback
    completes. *)
Theorem app_handlers_total (a : App) (e : event) (Ha : app_reachable a) :
  exists a', app_step a e = Some a'.
Proof.
  destruct (app_inv_step a e (app_reachable_inv a Ha)) as (a' & H & _). eauto.
Qed.


(** ** Sessions of the application *)

Fixpoint app_steps (a : App) (es : list event) : option App :=
  match es with
  | [] => Some a
  | e :: es' =>
      match app_step a e with None => None | Some a' => app_steps a' es' end
  end.

Definition app_run (r : nat -> nat) (es : list event) : option App :=
  match app_init r with None => None | Some a => app_steps a es end.

Lemma app_steps_reachable (a a' : App) (es : list event) :
  app_reachable a -> app_steps a es = Some a' -> app_reachable a'.
Proof.
  revert a. induction es as [|e es IH]; intros a Ha H; simpl in H.
  - injection H as <-. exact Ha.
  - destruct (app_step a e) as [a1|] eqn:E; [|discriminate].
    exact (IH a1 (app_reach_step a e a1 Ha E) H).
Qed.

Definition app_state (r : nat -> nat) (es : list event) : App :=
  match app_run r es with
  | Some a => a
  | None => mkApp default_config dead_game false ""
  end.

Lemma app_state_reachable (r : nat -> nat) (es : list event) :
  app_run r es <> None -> app_reachable (app_state r es).
Proof.
  unfold app_state, app_run. destruct (app_init r) as [a0|] eqn:E0; [|congruence].
  destruct (app_steps a0 es) as [a|] eqn:E; [|congruence]. intros _.
  exact (app_steps_reachable a0 a es (app_reach_init r a0 E0) E).
Qed.

(** A session: Start (one move), a timer tick, "w", another tick. *)
Definition app_demo : App :=
  app_state rB [ClickStart; TimerFires; KeyPress "w"; TimerFires].

(** Session B driven straight up into the top wall. *)
Definition sB_dead : SnakeGame :=
  run_state cfgB rB [Queue "up"; Move; Move; Move; Move; Move].


Definition cfg_demo : Config.t := Config.mk 12 28 100 3 5 true false.

Definition nl : string := String (ascii_of_nat 10) EmptyString.

(** ** Witnesses *)



Lemma apply_settings_form_roundtrip_witness :
  valid_config default_config /\
  validate_settings (form_of_config default_config) = inr default_config.
Proof.
  assert (H : valid_config default_config).
  { unfold valid_config, default_config, MIN_GRID_SIZE, MAX_GRID_SIZE,
      MIN_CELL_SIZE, MAX_CELL_SIZE, MIN_SPEED_MS, MAX_SPEED_MS, MIN_APPLES,
      MAX_APPLES, MIN_INITIAL_LENGTH; simpl. lia. }
  exact (conj H (apply_settings_form_roundtrip default_config H)).
Defined.

Lemma valid_config_reset_witness :
  valid_config cfg_demo /\
  exists s, reset cfg_demo rB = Some s /\
    Z.of_nat (length (snake s)) = Config.initial_length cfg_demo /\
    Forall (in_grid (Config.grid_size cfg_demo)) (snake s) /\
    Z.of_nat (size (apples s)) = Config.apples cfg_demo /\
    apples s ## snake_set s /\
    apples s ⊆ all_cells (Config.grid_size cfg_demo).
Proof.
  assert (H : valid_config cfg_demo).
  { unfold valid_config, cfg_demo, MIN_GRID_SIZE, MAX_GRID_SIZE,
      MIN_CELL_SIZE, MAX_CELL_SIZE, MIN_SPEED_MS, MAX_SPEED_MS, MIN_APPLES,
      MAX_APPLES, MIN_INITIAL_LENGTH; simpl. lia. }
  exact (conj H (valid_config_reset cfg_demo rB H)).
Defined.

Lemma reset_length_limits_witness :
  1 <= Config.grid_size cfgA /\
  ((reset cfgA rA <> None <->
    1 <= Config.initial_length cfgA <= Config.grid_size cfgA + 1) /\
   (Config.initial_length cfgA = Config.grid_size cfgA + 1 ->
    exists s, reset cfgA rA = Some s /\
      last (snake s) = Some (-1, Config.grid_size cfgA / 2) /\
      (-1, Config.grid_size cfgA / 2) ∉ all_cells (Config.grid_size cfgA))).
Proof.
  assert (H : 1 <= Config.grid_size cfgA) by (simpl; lia).
  exact (conj H (reset_length_limits cfgA rA H)).
Defined.

Lemma move_reports_alive_witness :
  move cfgB sB0 = Some (true, sB1) /\
  (true = alive sB1 /\ (alive sB0 = false -> true = false /\ sB1 = sB0)).
Proof.
  assert (H : move cfgB sB0 = Some (true, sB1)) by (vm_compute; reflexivity).
  exact (conj H (move_reports_alive cfgB sB0 sB1 true H)).
Defined.

Lemma dead_game_frozen_witness :
  alive sB_dead = false /\
  exists s', run_ops cfgB [Move; Queue "down"; Move] sB_dead = Some s' /\
    s' = set_pending_direction sB_dead (pending_direction s') /\
    alive s' = false.
Proof.
  assert (H : alive sB_dead = false) by (vm_compute; reflexivity).
  exact (conj H (dead_game_frozen cfgB [Move; Queue "down"; Move] sB_dead H)).
Defined.

Lemma reachable_snake_set_disjoint_witness :
  reachable cfgB sB_pre /\
  (snake_set sB_pre ## apples sB_pre /\ snake_set sB_pre ## free_tiles sB_pre /\
   (Config.initial_length cfgB <= Config.grid_size cfgB ->
    snake_set sB_pre ∪ apples sB_pre ∪ free_tiles sB_pre =
      all_cells (Config.grid_size cfgB) /\
    Forall (in_grid (Config.grid_size cfgB)) (snake sB_pre))).
Proof.
  assert (Hr : reachable cfgB sB_pre)
    by (apply run_state_reachable; vm_compute; discriminate).
  exact (conj Hr (reachable_snake_set_disjoint cfgB sB_pre Hr)).
Defined.

Lemma reachable_snake_set_in_body_witness :
  reachable cfgB sB_pre /\
  ((forall x, x ∈ snake_set sB_pre -> x ∈ snake sB_pre) /\
   (forall s' h, move cfgB sB_pre = Some (false, s') -> alive sB_pre = true ->
      candidate_head cfgB sB_pre = Some h -> in_grid (Config.grid_size cfgB) h ->
      h ∈ snake sB_pre)).
Proof.
  assert (Hr : reachable cfgB sB_pre)
    by (apply run_state_reachable; vm_compute; discriminate).
  exact (conj Hr (reachable_snake_set_in_body cfgB sB_pre Hr)).
Defined.

Lemma app_status_consistent_witness :
  app_reachable app_demo /\
  (valid_config (app_config app_demo) /\
   after_pending app_demo = running (game app_demo) /\
   (running (game app_demo) = true ->
      alive (game app_demo) = true /\ state_text app_demo = "State: Running"%string) /\
   (alive (game app_demo) = false ->
      state_text app_demo = "State: Game Over"%string)).
Proof.
  assert (Ha : app_reachable app_demo)
    by (apply app_state_reachable; vm_compute; discriminate).
  exact (conj Ha (app_status_consistent app_demo Ha)).
Defined.

Lemma app_handlers_total_witness :
  app_reachable app_demo /\ exists a', app_step app_demo ClickReset = Some a'.
Proof.
  assert (Ha : app_reachable app_demo)
    by (apply app_state_reachable; vm_compute; discriminate).
  exact (conj Ha (app_handlers_total app_demo ClickReset Ha)).
Defined.

Lemma parse_int_blank_witness :
  Forall (fun c => py_isspace c = true) (list_ascii_of_string " ") /\
  Forall (fun c => py_isspace c = true) (list_ascii_of_string nl) /\
  ("-"%string = ""%string \/ "-"%string = "+"%string \/ "-"%string = "-"%string) /\
  parse_int (" " ++ "-" ++ nl) MIN_GRID_SIZE MAX_GRID_SIZE "Grid size"
    = inl (NotInteger "Grid size").
Proof.
  assert (H1 : Forall (fun c => py_isspace c = true) (list_ascii_of_string " "))
    by (repeat constructor).
  assert (H2 : Forall (fun c => py_isspace c = true) (list_ascii_of_string nl))
    by (repeat constructor).
  assert (H3 : "-"%string = ""%string \/ "-"%string = "+"%string \/
               "-"%string = "-"%string) by (right; right; reflexivity).
  exact (conj H1 (conj H2 (conj H3 (parse_int_blank " " "-" nl MIN_GRID_SIZE
                                      MAX_GRID_SIZE "Grid size" H1 H2 H3)))).
Defined.

(** ** The app's game is an engine state *)

Lemma replenish_apples_set_running (cfg : Config.t) (s : SnakeGame) (v : bool) :
  replenish_apples cfg (set_running s v) = set_running (replenish_apples cfg s) v.
Proof.
  unfold replenish_apples, replenish_target.
  cbn [set_running apples free_tiles rng].
  destruct (replenish_loop _ _ _ _ _) as [[a f] r]. reflexivity.
Qed.

Lemma move_commit_set_running (cfg : Config.t) (s : SnakeGame) (h : pos) (v : bool) :
  move_commit cfg (set_running s v) h =
  option_map (fun p => (p.1, set_running p.2 v)) (move_commit cfg s h).
Proof.
  unfold move_commit. cbn [set_running snake snake_set apples].
  destruct (last (snake s)) as [t|]; [|reflexivity].
  destruct (_ && _); [reflexivity|]. cbn [option_map fst snd].
  do 2 f_equal. rewrite <- replenish_apples_set_running. f_equal.
  destruct (bool_decide (h ∈ apples s)); [reflexivity|].
  cbn [set_free_tiles set_snake_set set_snake set_running snake].
  destruct (last (h :: snake s)); reflexivity.
Qed.

Lemma move_set_running (cfg : Config.t) (s : SnakeGame) (v : bool) :
  move cfg (set_running s v) =
  option_map (fun p => (p.1, set_running p.2 v)) (move cfg s).
Proof.
  unfold move.
  change (alive (set_running s v)) with (alive s).
  change (set_direction (set_running s v) (pending_direction (set_running s v)))
    with (set_running (set_direction s (pending_direction s)) v).
  destruct (alive s); [|reflexivity]. cbn [negb].
  set (s1 := set_direction s (pending_direction s)).
  change (snake (set_running s1 v)) with (snake s1).
  change (direction (set_running s1 v)) with (direction s1).
  destruct (next_head (snake s1) (direction s1)) as [[x y]|]; [|reflexivity].
  change (set_alive (set_running s1 v) false) with (set_running (set_alive s1 false) v).
  destruct (Config.wrap_walls cfg).
  - destruct (_ =? 0); [reflexivity|]. apply move_commit_set_running.
  - destruct (negb (in_bounds cfg x y)); [reflexivity|].
    apply move_commit_set_running.
Qed.

Lemma queue_direction_set_running (s : SnakeGame) (d : string) (v : bool) :
  queue_direction (set_running s v) d = set_running (queue_direction s d) v.
Proof.
  unfold queue_direction. destruct (opposites d) as [o|]; [|reflexivity].
  change (snake (set_running s v)) with (snake s).
  change (direction (set_running s v)) with (direction s).
  destruct (_ && _); reflexivity.
Qed.

(** The app's game is a state reachable under the app's config, with the
    [running] flag the app sets. *)
Definition app_game_ok (a : App) : Prop :=
  exists g0 v, reachable (app_config a) g0 /\ game a = set_running g0 v.

Lemma set_running_twice (s : SnakeGame) (v w : bool) :
  set_running (set_running s v) w = set_running s w.
Proof. reflexivity. Qed.

Lemma reset_game_ok (cfg : Config.t) (r : nat -> nat) (g : SnakeGame) (v : bool) :
  reset cfg r = Some g -> exists g0 w, reachable cfg g0 /\ set_running g v = set_running g0 w.
Proof. intros H. exists g, v. split; [exact (reach_reset cfg r g H) | reflexivity]. Qed.

Lemma tick_game_ok (a a' : App) :
  app_game_ok a -> tick a = Some a' -> app_game_ok a'.
Proof.
  intros (g0 & v & Hr & Hg) H. unfold tick, cancel_loop, set_after_pending in H.
  cbn [game app_config] in H.
  destruct (negb (running (game a))).
  - injection H as <-. exists g0, v. split; [exact Hr | exact Hg].
  - rewrite Hg, move_set_running in H.
    destruct (move (app_config a) g0) as [[b g1]|] eqn:Hm; [|discriminate].
    cbn [option_map fst snd] in H.
    pose proof (reach_move _ _ _ _ Hr Hm) as Hr1.
    destruct b; injection H as <-.
    + exists g1, v. split; [exact Hr1 | reflexivity].
    + exists g1, false. split; [exact Hr1 | reflexivity].
Qed.

Lemma app_game_ok_step (a a' : App) (e : event) :
  app_game_ok a -> app_step a e = Some a' -> app_game_ok a'.
Proof.
  intros Hok. pose proof Hok as (g0 & v & Hr & Hg).
  assert (Htoggle : toggle_pause a = Some a' -> app_game_ok a').
  { unfold toggle_pause. destruct (negb (alive (game a))).
    - intros H. injection H as <-. exact Hok.
    - destruct (running _).
      + intros H. eapply tick_game_ok; [|exact H].
        exists g0, (negb (running (game a))). split; [exact Hr|].
        unfold set_state_text, set_game; simpl. rewrite Hg. reflexivity.
      + intros H. injection H as <-.
        exists g0, (negb (running (game a))). split; [exact Hr|].
        unfold cancel_loop, set_after_pending, set_state_text, set_game; simpl.
        rewrite Hg. reflexivity. }
  destruct e as [seq| | | |f|]; simpl.
  - unfold key_press. destruct (find _ key_bindings) as [[? [d|]]|].
    + intros H. injection H as <-. exists (queue_direction g0 d), v.
      split; [exact (reach_queue _ _ d Hr)|].
      unfold set_game; simpl. rewrite Hg. apply queue_direction_set_running.
    + exact Htoggle.
    + intros H. injection H as <-. exact Hok.
  - unfold start_game.
    destruct (negb (alive (game a))).
    + destruct (reset (app_config a) (rng (game a))) as [g|] eqn:E; [|discriminate].
      intros H. eapply tick_game_ok; [|exact H].
      exists g, true. split; [exact (reach_reset _ _ _ E) | reflexivity].
    + intros H. eapply tick_game_ok; [|exact H].
      exists g0, true. split; [exact Hr|].
      unfold set_state_text, set_game; simpl. rewrite Hg. reflexivity.
  - exact Htoggle.
  - unfold reset_game, cancel_loop, set_after_pending; simpl.
    destruct (reset (app_config a) (rng (game a))) as [g|] eqn:E; [|discriminate].
    intros H. injection H as <-. exists g, (running g).
    split; [exact (reach_reset _ _ _ E) | destruct g; reflexivity].
  - unfold apply_settings. destruct (validate_settings f) as [err|cfg].
    + intros H. injection H as <-. exact Hok.
    + destruct (reset cfg (rng (game a))) as [g|] eqn:E; [|discriminate].
      intros H. injection H as <-. exists g, (running g).
      split; [exact (reach_reset _ _ _ E) | destruct g; reflexivity].
  - destruct (after_pending a).
    + apply tick_game_ok, Hok.
    + intros H. injection H as <-. exact Hok.
Qed.

Lemma app_reachable_game_ok (a : App) : app_reachable a -> app_game_ok a.
Proof.
  induction 1 as [r a Ha | a e a' _ IH Hs].
  - unfold app_init in Ha. destruct (reset default_config r) as [g|] eqn:E;
      [|discriminate].
    injection Ha as <-. exists g, (running g).
    split; [exact (reach_reset _ _ _ E) | destruct g; reflexivity].
  - exact (app_game_ok_step a a' e IH Hs).
Qed.

(** ** Drawing *)

Definition BOARD_BG : string := "#1c2229".
Definition GRID_COLOR : string := "#293340".
Definition SNAKE_HEAD : string := "#45d483".
Definition SNAKE_BODY : string := "#1fb86b".
Definition APPLE_COLOR : string := "#ff5c74".
Definition TEXT_PRIMARY : string := "#e6eef7".
Definition TEXT_MUTED : string := "#95a4b8".

(** The [canvas.create_*] calls, with the options that vary. *)
Inductive canvas_item :=
  | Line (x1 y1 x2 y2 : Z) (fill : string)
  | Oval (x1 y1 x2 y2 : Z) (fill : string)
  | Rect (x1 y1 x2 y2 : Z) (fill : string) (stipple : option string)
  | Text (x y : Z) (text fill : string) (font_size : Z).

(** [_apply_canvas_size] *)
Definition canvas_side (cfg : Config.t) : Z :=
  Config.grid_size cfg * Config.cell_size cfg.

Definition grid_lines (size cell : Z) : list canvas_item :=
  range (size + 1) ≫= fun i =>
    let pos := i * cell in
    [Line 0 pos (size * cell) pos GRID_COLOR;
     Line pos 0 pos (size * cell) GRID_COLOR].

Definition apple_oval (cell : Z) (c : pos) : canvas_item :=
  let '(x, y) := c in
  Oval (x * cell + 4) (y * cell + 4) ((x + 1) * cell - 4) ((y + 1) * cell - 4)
    APPLE_COLOR.

Definition snake_rect (cell : Z) (idx : nat) (c : pos) : canvas_item :=
  let '(x, y) := c in
  let color := if Nat.eqb idx 0 then SNAKE_HEAD else SNAKE_BODY in
  Rect (x * cell + 2) (y * cell + 2) ((x + 1) * cell - 2) ((y + 1) * cell - 2)
    color None.

Definition game_over_items (side : Z) : list canvas_item :=
  [Rect 0 0 side side "#000000" (Some "gray50"%string);
   Text (side / 2) (side / 2 - 12) "Game Over" TEXT_PRIMARY 22;
   Text (side / 2) (side / 2 + 20) "Press Reset or Start" TEXT_MUTED 12].

(** [draw]: the items left on the canvas (after [delete("all")]), in
    drawing order; iteration over [self.game.apples] follows [elements]. *)
Definition draw_items (a : App) : list canvas_item :=
  let size := Config.grid_size (app_config a) in
  let cell := Config.cell_size (app_config a) in
  (if Config.show_grid (app_config a) then grid_lines size cell else [])
  ++ map (apple_oval cell) (elements (apples (game a)))
  ++ imap (snake_rect cell) (snake (game a))
  ++ (if alive (game a) then [] else game_over_items (size * cell)).

(** The [score_var] and [length_var] texts [draw] sets. *)
Definition draw_labels (a : App) : string * string :=
  ("Score: " ++ py_str_int (score (game a)),
   "Length: " ++ py_str_int (Z.of_nat (length (snake (game a)))))%string.

Definition item_inside (side : Z) (it : canvas_item) : Prop :=
  match it with
  | Line x1 y1 x2 y2 _ | Oval x1 y1 x2 y2 _ | Rect x1 y1 x2 y2 _ _ =>
      0 <= x1 <= side /\ 0 <= y1 <= side /\ 0 <= x2 <= side /\ 0 <= y2 <= side
  | Text x y _ _ _ => 0 <= x <= side /\ 0 <= y <= side
  end.

Lemma Forall_imap_all {A B} (P : B -> Prop) (f : nat -> A -> B) (l : list A) :
  (forall i x, x ∈ l -> P (f i x)) -> Forall P (imap f l).
Proof.
  revert f. induction l as [|x l IH]; intros f H; [constructor|].
  rewrite imap_cons. constructor.
  - apply H. apply elem_of_cons. left; reflexivity.
  - apply IH. intros i y Hy. apply H. apply elem_of_cons. right; exact Hy.
Qed.

Lemma cell_inside (size cell k x : Z) :
  0 <= k <= 4 -> k * 2 <= cell -> 0 <= x < size ->
  0 <= x * cell + k <= size * cell /\ 0 <= (x + 1) * cell - k <= size * cell.
Proof. intros Hk Hc Hx. split; nia. Qed.

(** [X13]: in every state the app reaches, everything [draw()] puts on the
    canvas lies inside the [grid_size * cell_size] square that
    [_apply_canvas_size] gives the canvas: grid lines, apples, snake cells
    and the game-over overlay and texts. *)
Theorem draw_inside_canvas (a : App) (Ha : app_reachable a) :
  Forall (item_inside (canvas_side (app_config a))) (draw_items a).
Proof.
  destruct (app_reachable_inv a Ha) as (Hv & _).
  destruct (app_reachable_game_ok a Ha) as (g0 & v & Hr & Hg).
  destruct Hv as (H1 & H2 & _ & _ & H5 & _).
  unfold MIN_GRID_SIZE, MAX_GRID_SIZE, MIN_CELL_SIZE, MAX_CELL_SIZE,
    MIN_INITIAL_LENGTH in *.
  destruct (on_board_inv (app_config a) g0 ltac:(lia) Hr) as [Hs Hap].
  unfold draw_items, canvas_side. rewrite Hg.
  change (apples (set_running g0 v)) with (apples g0).
  change (snake (set_running g0 v)) with (snake g0).
  change (alive (set_running g0 v)) with (alive g0).
  remember (Config.grid_size (app_config a)) as size eqn:Esz.
  remember (Config.cell_size (app_config a)) as cell eqn:Ecl.
  rewrite !Forall_app. split; [|split; [|split]].
  - destruct (Config.show_grid (app_config a)); [|constructor].
    unfold grid_lines. apply Forall_bind, Forall_forall. intros i Hi.
    apply list_elem_of_In, in_range in Hi.
    repeat constructor; simpl; nia.
  - apply Forall_forall. intros it Hit.
    apply list_elem_of_In, in_map_iff in Hit as ([x y] & <- & Hxy).
    apply list_elem_of_In, elem_of_elements in Hxy.
    assert (Hc : in_grid size (x, y)) by (apply Hap; set_solver).
    destruct Hc as [Hx Hy]; simpl in Hx, Hy.
    destruct (cell_inside size cell 4 x ltac:(lia) ltac:(lia) Hx).
    destruct (cell_inside size cell 4 y ltac:(lia) ltac:(lia) Hy).
    simpl. auto.
  - apply Forall_imap_all. intros i [x y] Hxy.
    rewrite Forall_forall in Hs. apply Hs in Hxy.
    destruct Hxy as [Hx Hy]; simpl in Hx, Hy.
    destruct (cell_inside size cell 2 x ltac:(lia) ltac:(lia) Hx).
    destruct (cell_inside size cell 2 y ltac:(lia) ltac:(lia) Hy).
    simpl. auto.
  - destruct (alive g0); [constructor|].
    unfold game_over_items. repeat constructor; simpl;
      Z.div_mod_to_equations; nia.
Qed.

Lemma draw_inside_canvas_witness :
  app_reachable app_demo /\
  Forall (item_inside (canvas_side (app_config app_demo))) (draw_items app_demo).
Proof.
  assert (Ha : app_reachable app_demo)
    by (apply app_state_reachable; vm_compute; discriminate).
  exact (conj Ha (draw_inside_canvas app_demo Ha)).
Defined.
